(** * Schelling segregation simulator: a shallow embedding of [main.py]

    The simulation engine of [SocialSegregation] is embedded as Rocq
    functions over lists of rows.  Python floats are IEEE binary64 numbers
    and are modelled with the standard library's [spec_float] at precision
    53 and maximal exponent 1024; the two global random generators
    ([random] and [numpy.random]) are modelled as explicit sources of raw
    draws that are threaded through the code. *)

From Stdlib Require Import ZArith List Lia Bool Permutation.
From Stdlib Require Import Floats.SpecFloat.
From Stdlib Require Import Strings.String.
From stdpp Require Import base option list.

Open Scope Z_scope.

(** ** Python floats (IEEE 754 binary64) *)

Module PyFloat.

Definition float : Type := spec_float.

Definition prec : Z := 53.
Definition emax : Z := 1024.

(** [float(n)] for a Python int: the nearest binary64 number. *)
Definition of_int (n : Z) : float := binary_normalize prec emax n 0 false.

(** [a * b], [a / b] on floats. *)
Definition mul (a b : float) : float := SFmul prec emax a b.
Definition div (a b : float) : float := SFdiv prec emax a b.

(** [a < b], [a == b], [a >= b]: comparisons with a NaN are false. *)
Definition ltb (a b : float) : bool := SFltb a b.
Definition eqb (a b : float) : bool := SFeqb a b.
Definition geb (a b : float) : bool := SFleb b a.

(** [int(f)]: truncation toward zero; [None] stands for the exception
    Python raises on an infinity or a NaN. *)
Definition to_int (f : float) : option Z :=
  match f with
  | S754_zero _ => Some 0
  | S754_finite s m e =>
      let a := if 0 <=? e then Z.shiftl (Z.pos m) e
               else Z.shiftr (Z.pos m) (- e) in
      Some (if s then - a else a)
  | S754_infinity _ | S754_nan => None
  end.

(** [round(f)]: the nearest integer, ties going to the even one. *)
Definition round_half_even (f : float) : option Z :=
  match f with
  | S754_zero _ => Some 0
  | S754_finite s m e =>
      let a :=
        if 0 <=? e then Z.shiftl (Z.pos m) e
        else
          let q := Z.shiftr (Z.pos m) (- e) in
          let r := Z.pos m - Z.shiftl q (- e) in
          let half := Z.shiftl 1 (- e - 1) in
          if (half <? r) || ((r =? half) && Z.odd q) then q + 1 else q in
      Some (if s then - a else a)
  | S754_infinity _ | S754_nan => None
  end.

(** The float that a decimal literal [a/b] denotes when it is the
    correctly rounded quotient, e.g. [ratio 2 5] for [0.4]. *)
Definition ratio (a b : Z) : float := div (of_int a) (of_int b).

End PyFloat.

Abbreviation float := PyFloat.float.

(** ** Grid *)

(** A cell holds [-1] when empty and an agent type [2 .. agent_types + 1]
    otherwise. *)
Definition cell : Type := Z.
Definition EMPTY : cell := -1.

(** The [numpy] array of shape [(height, width)], as the list of its rows. *)
Abbreviation Grid := (list (list cell)).

(** Coordinates are [(y_index, x_index)] pairs. *)
Abbreviation coord := (nat * nat)%type.

(** [len(self.grid)] and [len(self.grid[0])]. *)
Definition grid_height (grid : Grid) : nat := length grid.
Definition grid_width (grid : Grid) : nat :=
  match grid with
  | [] => 0%nat
  | row :: _ => length row
  end.

(** [self.grid[y][x]]; [None] stands for the [IndexError] of an index out
    of range. *)
Definition grid_get (grid : Grid) (c : coord) : option cell :=
  row ← grid !! c.1; row !! c.2.

(** [self.grid[y][x] = v]; [None] stands for the [IndexError] of an index
    out of range. *)
Definition grid_set (grid : Grid) (c : coord) (v : cell) : option Grid :=
  match grid !! c.1 with
  | Some row =>
      if decide (c.2 < length row)%nat
      then Some (<[c.1 := <[c.2 := v]> row]> grid)
      else None
  | None => None
  end.

(** [self.grid.size]. *)
Definition grid_size (grid : Grid) : nat := length (concat grid).

(** A grid of shape [(h, w)]. *)
Definition rect (h w : nat) (grid : Grid) : Prop :=
  length grid = h ∧ Forall (λ row, length row = w) grid.

(** The values of the occupied cells, in row-major order, and the number of
    empty cells. *)
Definition occupied_values (grid : Grid) : list cell :=
  filter (λ v, v ≠ EMPTY) (concat grid).
Definition count_empty (grid : Grid) : nat :=
  length (filter (λ v, v = EMPTY) (concat grid)).

(** ** Neighbourhood and classification *)

(** [_get_neighbours]: the comprehension over
    [range(row_number - 1, row_number + 2)] and
    [range(column_number - 1, column_number + 2)] with its guard. *)
Definition _get_neighbours (grid : Grid) (row_number column_number : nat)
  : list cell :=
  i ← seqZ (Z.of_nat row_number - 1) 3;
  j ← seqZ (Z.of_nat column_number - 1) 3;
  if (0 <=? i) && (0 <=? j)
     && (i <? Z.of_nat (grid_height grid))
     && (j <? Z.of_nat (grid_width grid))
     && (negb (i =? Z.of_nat row_number)
         || negb (j =? Z.of_nat column_number))
  then match grid_get grid (Z.to_nat i, Z.to_nat j) with
       | Some v => [v]
       | None => []
       end
  else [].

(** The two lists the test of [_find_unhappy_cells] is computed from. *)
Definition not_empty_neighbours (grid : Grid) (y_index x_index : nat)
  : list cell :=
  filter (λ i, i ≠ EMPTY) (_get_neighbours grid y_index x_index).

(** [sum(i == current for i in not_empty_neighbours if i != -1)]. *)
Definition same_count (current : cell) (not_empty : list cell) : nat :=
  length (filter (λ i, i = current) (filter (λ i, i ≠ EMPTY) not_empty)).

(** The condition of the [if] in [_find_unhappy_cells]: an int compared
    with the float product [len(not_empty_neighbours) * same_neighbour].
    Both ints are at most 8, so their conversion to float is exact. *)
Definition unhappy_test (same_neighbour : float) (current : cell)
    (not_empty : list cell) : bool :=
  PyFloat.ltb
    (PyFloat.of_int (Z.of_nat (same_count current not_empty)))
    (PyFloat.mul (PyFloat.of_int (Z.of_nat (length not_empty)))
                 same_neighbour).

Definition is_unhappy (grid : Grid) (same_neighbour : float)
    (y_index x_index : nat) (x : cell) : bool :=
  if decide (x = EMPTY) then false
  else unhappy_test same_neighbour x
         (not_empty_neighbours grid y_index x_index).

(** The scan of [_find_unhappy_cells], before the shuffle: row by row,
    left to right. *)
Definition scan_unhappy (grid : Grid) (same_neighbour : float) : list coord :=
  concat (imap (λ y_index row,
    concat (imap (λ x_index x,
      if is_unhappy grid same_neighbour y_index x_index x
      then [(y_index, x_index)] else []) row)) grid).

(** [_get_empty_cells]. *)
Definition _get_empty_cells (grid : Grid) : list coord :=
  concat (imap (λ y_index row,
    concat (imap (λ x_index x,
      if decide (x = EMPTY) then [(y_index, x_index)] else []) row)) grid).

(** ** Exceptions *)

Inductive exn : Type :=
| IndexError
| ValueError
| OverflowError
| SystemExit (code : Z).

Inductive result (A : Type) : Type :=
| Ok (a : A)
| Raise (e : exn).
Arguments Ok {A} a.
Arguments Raise {A} e.

(** ** Random sources *)

(** A generator is a sequence of raw draws and a position in it.  Seeding
    a generator fixes the whole record. *)
Record RandomSource : Type := {
  draws : nat → nat;
  cursor : nat
}.

Section Random.
Context {A : Type}.

(** [_randbelow(n)] for [n > 0]: a number below [n]. *)
Definition randbelow (n : nat) (g : RandomSource) : nat * RandomSource :=
  ((draws g (cursor g) mod n)%nat,
   {| draws := draws g; cursor := S (cursor g) |}).

(** [random.choice(seq)]: [None] stands for the [IndexError] raised on
    an empty sequence, which consumes no randomness. *)
Definition choice (seq : list A) (g : RandomSource)
  : option A * RandomSource :=
  match seq with
  | [] => (None, g)
  | _ :: _ =>
      let '(i, g') := randbelow (length seq) g in (seq !! i, g')
  end.

(** [x[i], x[j] = x[j], x[i]]. *)
Definition swap (x : list A) (i j : nat) : list A :=
  match x !! i, x !! j with
  | Some a, Some b => <[j := a]> (<[i := b]> x)
  | _, _ => x
  end.

(** The loop of [shuffle]:
    [for i in reversed(range(1, len(x))): j = randbelow(i + 1); swap]. *)
Fixpoint shuffle_from (i : nat) (x : list A) (g : RandomSource)
  : list A * RandomSource :=
  match i with
  | O => (x, g)
  | S i' =>
      let '(j, g') := randbelow (S i) g in
      shuffle_from i' (swap x i j) g'
  end.

Definition shuffle (x : list A) (g : RandomSource)
  : list A * RandomSource :=
  shuffle_from (length x - 1) x g.

(** [seq.remove(a)]: drops the first occurrence; [None] stands for the
    [ValueError] raised when there is none. *)
Fixpoint list_remove `{EqDecision A} (a : A) (seq : list A)
  : option (list A) :=
  match seq with
  | [] => None
  | b :: seq' =>
      if decide (a = b) then Some seq'
      else cons b <$> list_remove a seq'
  end.
End Random.

(** ** The update step *)

(** [_find_unhappy_cells]: [None] stands for the [sys.exit(0)] taken when
    no cell is unhappy. *)
Definition _find_unhappy_cells (grid : Grid) (same_neighbour : float)
    (g : RandomSource) : option (list coord) * RandomSource :=
  let unhappy_cells := scan_unhappy grid same_neighbour in
  match unhappy_cells with
  | [] => (None, g)
  | _ :: _ =>
      let '(unhappy_cells, g') := shuffle unhappy_cells g in
      (Some unhappy_cells, g')
  end.

(** One relocation, recorded for the specification: the grid and the
    working list at the moment the destination was drawn, whether the list
    had to be recomputed, and the two coordinates. *)
Record Move : Type := {
  mv_grid : Grid;
  mv_spots : list coord;
  mv_rescan : bool;
  mv_src : coord;
  mv_dst : coord
}.

(** The state of the loop of [_update]. *)
Record Pass : Type := {
  p_grid : Grid;
  p_spots : list coord;
  p_rng : RandomSource;
  p_moves : list Move
}.

(** The [try ... except IndexError] of [_update]: the destination, the
    working list it was drawn from and whether that list was recomputed. *)
Definition pick_destination (grid : Grid) (empty_spots : list coord)
    (g : RandomSource)
  : option (coord * list coord * bool) * RandomSource :=
  match choice empty_spots g with
  | (Some d, g') => (Some (d, empty_spots, false), g')
  | (None, g') =>
      let empty_spots := _get_empty_cells grid in
      match choice empty_spots g' with
      | (Some d, g'') => (Some (d, empty_spots, true), g'')
      | (None, g'') => (None, g'')
      end
  end.

(** The body of the [for] loop of [_update], for the unhappy cell [src]. *)
Definition relocate_one (src : coord) (p : Pass) : Pass * result unit :=
  match pick_destination (p_grid p) (p_spots p) (p_rng p) with
  | (None, g) =>
      ({| p_grid := p_grid p; p_spots := _get_empty_cells (p_grid p);
          p_rng := g; p_moves := p_moves p |}, Raise IndexError)
  | (Some (dst, spots, rescan), g) =>
      let p0 := {| p_grid := p_grid p; p_spots := spots; p_rng := g;
                   p_moves := p_moves p |} in
      match grid_get (p_grid p) src with
      | None => (p0, Raise IndexError)
      | Some v =>
          match grid_set (p_grid p) dst v with
          | None => (p0, Raise IndexError)
          | Some grid1 =>
              let p1 := {| p_grid := grid1; p_spots := spots; p_rng := g;
                           p_moves := p_moves p |} in
              match grid_set grid1 src EMPTY with
              | None => (p1, Raise IndexError)
              | Some grid2 =>
                  let mv := {| mv_grid := p_grid p; mv_spots := spots;
                               mv_rescan := rescan; mv_src := src;
                               mv_dst := dst |} in
                  match list_remove dst spots with
                  | None =>
                      ({| p_grid := grid2; p_spots := spots; p_rng := g;
                          p_moves := p_moves p ++ [mv] |}, Raise ValueError)
                  | Some spots' =>
                      ({| p_grid := grid2; p_spots := spots'; p_rng := g;
                          p_moves := p_moves p ++ [mv] |}, Ok tt)
                  end
              end
          end
      end
  end.

(** [for y_index, x_index in unhappy_cells: ...]. *)
Fixpoint relocate (unhappy_cells : list coord) (p : Pass)
  : Pass * result unit :=
  match unhappy_cells with
  | [] => (p, Ok tt)
  | src :: rest =>
      match relocate_one src p with
      | (p', Ok _) => relocate rest p'
      | (p', Raise e) => (p', Raise e)
      end
  end.

(** [_update]: the pass reached (its grid, generator and moves) and either
    the number of unhappy cells or the exception that ended it. *)
Definition _update (grid : Grid) (same_neighbour : float) (g : RandomSource)
  : Pass * result nat :=
  match _find_unhappy_cells grid same_neighbour g with
  | (None, g') =>
      ({| p_grid := grid; p_spots := []; p_rng := g'; p_moves := [] |},
       Raise (SystemExit 0))
  | (Some unhappy_cells, g') =>
      let empty_spots := _get_empty_cells grid in
      match relocate unhappy_cells
              {| p_grid := grid; p_spots := empty_spots; p_rng := g';
                 p_moves := [] |} with
      | (p, Ok _) => (p, Ok (length unhappy_cells))
      | (p, Raise e) => (p, Raise e)
      end
  end.

(** ** Arguments and their validation *)

(** The fields of [ArgParser]. *)
Record ArgParser : Type := {
  images_path : string;
  no_gif : bool;
  gif_path : option string;
  width : Z;
  height : Z;
  agent_types : Z;
  iterations : Z;
  percent_empty : float;
  same_neighbour : float;
  palette : string
}.

(** What [process_args] sees of the file system: the answer [exists()]
    gives for a path at the moment it is asked, and whether the loop that
    empties [images_path] fails with an [OSError].  A path that exists is
    taken to be a directory that [os.listdir] can read. *)
Record FileSystem : Type := {
  dir_exists : string → bool;
  cleanup_fails : string → bool
}.

(** [process_args]: the first two [if]s are the numeric checks; the rest
    looks at the directories.  On success [gif_path] is filled in. *)
Definition process_args (fs : FileSystem) (a : ArgParser)
  : result ArgParser :=
  if PyFloat.ltb (percent_empty a) (PyFloat.of_int 0)
     || PyFloat.geb (percent_empty a) (PyFloat.of_int 1)
  then Raise ValueError
  else if PyFloat.ltb (same_neighbour a) (PyFloat.of_int 0)
          || PyFloat.geb (same_neighbour a) (PyFloat.of_int 1)
  then Raise ValueError
  else if negb (dir_exists fs (images_path a)) then Raise ValueError
  else if cleanup_fails fs (images_path a) then Raise (SystemExit 1)
  else
    let gif := match gif_path a with
               | None => images_path a
               | Some p => p
               end in
    if negb (dir_exists fs gif) then Raise ValueError
    else Ok {| images_path := images_path a; no_gif := no_gif a;
               gif_path := Some gif; width := width a; height := height a;
               agent_types := agent_types a; iterations := iterations a;
               percent_empty := percent_empty a;
               same_neighbour := same_neighbour a; palette := palette a |}.

(** ** Construction *)

(** The two global generators: [random] and [numpy.random]. *)
Record Generators : Type := {
  py_random : RandomSource;
  np_random : RandomSource
}.

(** One entry of [np.random.randint(low, high, ...)], for [low < high]. *)
Definition randint (low high : Z) (g : RandomSource) : Z * RandomSource :=
  let '(r, g') := randbelow (Z.to_nat (high - low)) g in
  (low + Z.of_nat r, g').

Fixpoint randint_row (low high : Z) (w : nat) (g : RandomSource)
  : list Z * RandomSource :=
  match w with
  | O => ([], g)
  | S w' =>
      let '(v, g1) := randint low high g in
      let '(row, g2) := randint_row low high w' g1 in
      (v :: row, g2)
  end.

(** [np.random.randint(low, high, size=(h, w))], filled in row-major
    order. *)
Fixpoint randint_grid (low high : Z) (h w : nat) (g : RandomSource)
  : Grid * RandomSource :=
  match h with
  | O => ([], g)
  | S h' =>
      let '(row, g1) := randint_row low high w g in
      let '(rows, g2) := randint_grid low high h' w g1 in
      (row :: rows, g2)
  end.

(** [a[:k]]. *)
Definition slice_to {A : Type} (k : Z) (a : list A) : list A :=
  if 0 <=? k then take (Z.to_nat k) a
  else take (length a - Z.to_nat (- k)) a.

(** [grid.flat[indices] = v]: flat index [i] is the cell
    [(i // width, i % width)]. *)
Definition flat_assign (w : nat) (indices : list nat) (v : cell)
    (grid : Grid) : option Grid :=
  foldl (λ acc i, grid ← acc; grid_set grid ((i / w)%nat, (i mod w)%nat) v)
        (Some grid) indices.

(** [int(args.percent_empty * self.grid.size)]; [None] when the product
    is an infinity or a NaN, on which [int] raises. *)
Definition num_empty (a : ArgParser) (size : nat) : option Z :=
  PyFloat.to_int
    (PyFloat.mul (percent_empty a) (PyFloat.of_int (Z.of_nat size))).

(** The simulation object: its grid and iteration counter. *)
Record SocialSegregation : Type := {
  args : ArgParser;
  grid : Grid;
  iteration : Z
}.

(** The exception [int(f)] raises when [f] is not finite: [OverflowError]
    for an infinity, [ValueError] for a NaN. *)
Definition int_error (f : float) : exn :=
  match f with
  | S754_infinity _ => OverflowError
  | _ => ValueError
  end.

(** The largest [int64]. *)
Definition INT64_MAX : Z := 2 ^ 63 - 1.

(** The checks of [np.random.randint(2, agent_types + 2, size=(h, w))]: a
    negative dimension is refused; an empty shape is returned as it is,
    whatever the bounds; otherwise the closed interval
    [2 .. agent_types + 1] must not be empty and must fit in [int64]. *)
Definition randint_refuses (a : ArgParser) : bool :=
  (height a <? 0) || (width a <? 0)
  || (negb ((Z.to_nat (height a) * Z.to_nat (width a) =? 0)%nat)
      && ((agent_types a + 1 <? 2) || (INT64_MAX <? agent_types a + 1))).

(** [SocialSegregation.__init__].  [np.random.shuffle] runs the same
    exchange loop as [random.shuffle], on the generator of [numpy].
    Running out of memory on a huge array is not modelled. *)
Definition __init__ (a : ArgParser) (g : Generators)
  : result SocialSegregation * Generators :=
  if randint_refuses a
  then (Raise ValueError, g)
  else
    let h := Z.to_nat (height a) in
    let w := Z.to_nat (width a) in
    let '(grid0, np1) :=
      randint_grid 2 (agent_types a + 2) h w (np_random g) in
    match num_empty a (grid_size grid0) with
    | None =>
        (Raise (int_error
                  (PyFloat.mul (percent_empty a)
                     (PyFloat.of_int (Z.of_nat (grid_size grid0))))),
         {| py_random := py_random g; np_random := np1 |})
    | Some n =>
        let empty_indice := seq 0 (grid_size grid0) in
        let '(empty_indice, np2) := shuffle empty_indice np1 in
        let empty_indice := slice_to n empty_indice in
        let g' := {| py_random := py_random g; np_random := np2 |} in
        match flat_assign w empty_indice EMPTY grid0 with
        | None => (Raise IndexError, g')
        | Some grid1 =>
            (Ok {| args := a; grid := grid1; iteration := 0 |}, g')
        end
    end.

(** ** The simulation loop *)

(** [range(start, stop)] and [itertools.count(start)]. *)
Inductive iterator : Type :=
| range (start stop : Z)
| count (start : Z).

Definition next (it : iterator) : option (Z * iterator) :=
  match it with
  | range start stop =>
      if start <? stop then Some (start, range (start + 1) stop) else None
  | count start => Some (start, count (start + 1))
  end.

(** The iterator [run] builds from [args.iterations]. *)
Definition run_iterator (a : ArgParser) : iterator :=
  if iterations a =? -1 then count 1 else range 1 (iterations a + 1).

(** How a run ends: the [for] loop runs out ([Finished]), the process exits
    through [sys.exit], an exception escapes, or the loop is still going
    when the model stops following it. *)
Inductive Outcome : Type :=
| Finished
| Exited (code : Z)
| Crashed (e : exn)
| Running.

(** What a run produces: the object, the generator of [random], the frames
    handed to [_save_img] (iteration number and grid), and the number of
    calls of [_update]. *)
Record Run : Type := {
  r_model : SocialSegregation;
  r_rng : RandomSource;
  r_frames : list (Z * Grid);
  r_updates : nat
}.

(** [_save_gif]: the image folder is taken to hold the frames written by
    [_save_img] during this run and nothing else, as it does after
    [process_args] has emptied it.  Writing an animation of no image at
    all raises [ValueError]. *)
Definition _save_gif (frames : list (Z * Grid)) : result unit :=
  match frames with
  | [] => Raise ValueError
  | _ :: _ => Ok tt
  end.

(** [if not self.args.no_gif: self._save_gif()]. *)
Definition save_gif_unless_no_gif (a : ArgParser)
    (frames : list (Z * Grid)) : result unit :=
  if no_gif a then Ok tt else _save_gif frames.

(** The [for] loop of [run], followed for at most [fuel] iterations.
    [_save_img] is taken to succeed: the grid it draws is recorded as a
    frame.  The exit with status [code] is the [sys.exit] of
    [_find_unhappy_cells], which assembles the animation first. *)
Fixpoint run_loop (fuel : nat) (it : iterator) (r : Run) : Run * Outcome :=
  match fuel with
  | O => (r, Running)
  | S fuel' =>
      match next it with
      | None => (r, Finished)
      | Some (i, it') =>
          let a := args (r_model r) in
          let grid0 := grid (r_model r) in
          let frames := r_frames r ++ [(i, grid0)] in
          let '(p, res) := _update grid0 (same_neighbour a) (r_rng r) in
          let r' := {| r_model := {| args := a; grid := p_grid p;
                                     iteration := i |};
                       r_rng := p_rng p;
                       r_frames := frames;
                       r_updates := S (r_updates r) |} in
          match res with
          | Ok _ => run_loop fuel' it' r'
          | Raise (SystemExit code) =>
              match save_gif_unless_no_gif a frames with
              | Ok _ => (r', Exited code)
              | Raise e => (r', Crashed e)
              end
          | Raise e => (r', Crashed e)
          end
      end
  end.

(** What follows the [for] loop in [run]: the animation is assembled
    unless [no_gif] is set. *)
Definition after_loop (a : ArgParser) (r : Run) (o : Outcome) : Outcome :=
  match o with
  | Finished =>
      match save_gif_unless_no_gif a (r_frames r) with
      | Ok _ => Finished
      | Raise e => Crashed e
      end
  | o => o
  end.

(** [run], from a freshly built object. *)
Definition run (fuel : nat) (m : SocialSegregation) (g : RandomSource)
  : Run * Outcome :=
  let '(r, o) :=
    run_loop fuel (run_iterator (args m))
      {| r_model := m; r_rng := g; r_frames := []; r_updates := 0 |} in
  (r, after_loop (args m) r o).

(** The program: build the object, then run it. *)
Definition main (fuel : nat) (a : ArgParser) (g : Generators)
  : option Run * Outcome :=
  match __init__ a g with
  | (Raise e, _) => (None, Crashed e)
  | (Ok m, g') =>
      let '(r, o) := run fuel m (py_random g') in (Some r, o)
  end.

(** The script: parse and check the arguments, build the object, run. *)
Definition program (fs : FileSystem) (fuel : nat) (a : ArgParser)
    (g : Generators) : option Run * Outcome :=
  match process_args fs a with
  | Raise (SystemExit code) => (None, Exited code)
  | Raise e => (None, Crashed e)
  | Ok a' => main fuel a' g
  end.

(** ** Vocabulary of the specification *)

(** The two assignments of a recorded move, replayed on its grid. *)
Definition apply_move (mv : Move) : option Grid :=
  v ← grid_get (mv_grid mv) (mv_src mv);
  grid1 ← grid_set (mv_grid mv) (mv_dst mv) v;
  grid_set grid1 (mv_src mv) EMPTY.

(** [moves] is an execution that leads from [grid] to [grid']: every move
    starts in the grid the previous one produced. *)
Fixpoint replays (grid : Grid) (moves : list Move) (grid' : Grid) : Prop :=
  match moves with
  | [] => grid' = grid
  | mv :: rest =>
      mv_grid mv = grid
      ∧ ∃ grid1, apply_move mv = Some grid1 ∧ replays grid1 rest grid'
  end.

(** How the working list evolves along [moves], from [spots] to [spots']:
    each destination is drawn from the current list, or, when that list is
    exhausted, from a fresh scan of the grid; the destination then leaves
    the list. *)
Fixpoint draws_from (spots : list coord) (moves : list Move)
    (spots' : list coord) : Prop :=
  match moves with
  | [] => spots' = spots
  | mv :: rest =>
      (if mv_rescan mv
       then spots = [] ∧ mv_spots mv = _get_empty_cells (mv_grid mv)
       else spots ≠ [] ∧ mv_spots mv = spots)
      ∧ mv_dst mv ∈ mv_spots mv
      ∧ ∃ spots1, list_remove (mv_dst mv) (mv_spots mv) = Some spots1
                  ∧ draws_from spots1 rest spots'
  end.

(** A move takes an agent to an empty cell. *)
Definition move_ok (mv : Move) : Prop :=
  grid_get (mv_grid mv) (mv_dst mv) = Some EMPTY
  ∧ ∃ v, grid_get (mv_grid mv) (mv_src mv) = Some v ∧ v ≠ EMPTY.

(** The invariant of the loop of [_update], started in [grid0]: [done] are
    the unhappy cells already processed and [rest] those still to come. *)
Record pass_inv (grid0 : Grid) (done rest : list coord) (p : Pass)
  : Prop := {
  inv_spots_empty :
    ∀ c, c ∈ p_spots p → grid_get (p_grid p) c = Some EMPTY;
  inv_spots_nodup : NoDup (p_spots p);
  inv_rest_nodup : NoDup rest;
  inv_rest_occupied :
    ∀ c, c ∈ rest →
         ∃ v, grid_get (p_grid p) c = Some v ∧ v ≠ EMPTY
              ∧ grid_get grid0 c = Some v;
  inv_replays : replays grid0 (p_moves p) (p_grid p);
  inv_draws : draws_from (_get_empty_cells grid0) (p_moves p) (p_spots p);
  inv_moves_ok : Forall move_ok (p_moves p);
  inv_sources : mv_src <$> p_moves p = done;
  inv_dst_nodup : NoDup (mv_dst <$> p_moves p);
  inv_dst_holds :
    ∀ mv, mv ∈ p_moves p →
          (mv_dst mv ∉ rest)
          ∧ ∃ v, v ≠ EMPTY ∧ grid_get (p_grid p) (mv_dst mv) = Some v
                 ∧ grid_get grid0 (mv_src mv) = Some v;
  inv_done_empty :
    ∀ c, c ∈ done → c ∉ (mv_dst <$> p_moves p) →
         grid_get (p_grid p) c = Some EMPTY;
  inv_order :
    ∀ i j mi mj, p_moves p !! i = Some mi → p_moves p !! j = Some mj →
                 mv_dst mj = mv_src mi → (i < j)%nat;
  inv_perm : concat (p_grid p) ≡ₚ concat grid0
}.

(** Two grids hold the same agents: the occupied cells carry the same
    values with the same multiplicities, and as many cells are empty. *)
Definition same_population (grid grid' : Grid) : Prop :=
  occupied_values grid' ≡ₚ occupied_values grid
  ∧ count_empty grid' = count_empty grid.

(** The first number an iterator yields. *)
Definition first_index (it : iterator) : Z :=
  match it with
  | range start _ => start
  | count start => start
  end.

(** The unhappy set a pass works on: the list [_find_unhappy_cells]
    returns, or nothing when it exits. *)
Definition unhappy_set (grid : Grid) (same_neighbour : float)
    (g : RandomSource) : list coord :=
  match (_find_unhappy_cells grid same_neighbour g).1 with
  | Some unhappy_cells => unhappy_cells
  | None => []
  end.

(** Two generators deliver the same draws from where they stand, whatever
    they delivered before: what seeding both with one seed achieves. *)
Definition same_draws (g1 g2 : RandomSource) : Prop :=
  ∀ i, draws g1 (cursor g1 + i)%nat = draws g2 (cursor g2 + i)%nat.




(** A generator after [k] draws. *)
Definition advance (k : nat) (g : RandomSource) : RandomSource :=
  {| draws := draws g; cursor := cursor g + k |}.

(** The numbers [j] the loop of [shuffle] draws, from index [i] down. *)
Fixpoint exchange_draws (i : nat) (g : RandomSource) : list nat :=
  match i with
  | O => []
  | S i' => let '(j, g') := randbelow (S i) g in j :: exchange_draws i' g'
  end.

(** The loop of [shuffle] run on given numbers [js] instead of draws. *)
Fixpoint shuffle_with {A : Type} (i : nat) (js : list nat) (x : list A)
  : list A :=
  match i, js with
  | S i', j :: js' => shuffle_with i' js' (swap x i j)
  | _, _ => x
  end.

(** The sequences of numbers the loop of [shuffle] can draw from index [i]
    down: at index [k] a number below [k + 1]. *)
Fixpoint choices_in_range (i : nat) (js : list nat) : Prop :=
  match i, js with
  | O, [] => True
  | S i', j :: js' => (j ≤ i)%nat ∧ choices_in_range i' js'
  | _, _ => False
  end.

(** The number of empty cells in the words of the specification:
    [round(percent_empty * width * height)]. *)
Definition rounded_num_empty (a : ArgParser) : option Z :=
  PyFloat.round_half_even
    (PyFloat.mul (PyFloat.mul (percent_empty a) (PyFloat.of_int (width a)))
                 (PyFloat.of_int (height a))).

(** The agent types [2 .. agent_types + 1]. *)
Definition is_agent (a : ArgParser) (v : cell) : Prop :=
  2 ≤ v < agent_types a + 2.

(** Two coordinates are at most one row and one column apart. *)
Definition adjacent (a b : coord) : Prop :=
  Z.abs (Z.of_nat a.1 - Z.of_nat b.1) ≤ 1
  ∧ Z.abs (Z.of_nat a.2 - Z.of_nat b.2) ≤ 1.

(** ** Sample inputs *)

Module Sample.

(** A generator that yields the given draws, then zeros. *)
Definition source (l : list nat) : RandomSource :=
  {| draws := λ i, nth i l 0%nat; cursor := 0 |}.


Definition generators (py np : list nat) : Generators :=
  {| py_random := source py; np_random := source np |}.

(** The floats [0.0], [0.3], [0.4], [0.5], [0.75]. *)
Definition f0 : float := PyFloat.of_int 0.
Definition f03 : float := PyFloat.ratio 3 10.
Definition f04 : float := PyFloat.ratio 2 5.
Definition f05 : float := PyFloat.ratio 1 2.
Definition f075 : float := PyFloat.ratio 3 4.

(** One row, two unhappy agents and a single empty cell. *)
Definition row3 : Grid := [[2; 3; -1]].

(** A full 1 x 2 grid with two agents of different types. *)
Definition full : Grid := [[2; 3]].

Definition config (w h types iters : Z) (pe sn : float) : ArgParser :=
  {| images_path := "images"; no_gif := false; gif_path := None;
     width := w; height := h; agent_types := types; iterations := iters;
     percent_empty := pe; same_neighbour := sn; palette := "GnBu" |}.

(** A file system in which every directory exists and can be emptied. *)
Definition fs : FileSystem :=
  {| dir_exists := λ _, true; cleanup_fails := λ _, false |}.

Definition model (a : ArgParser) (grid0 : Grid) : SocialSegregation :=
  {| args := a; grid := grid0; iteration := 0 |}.

End Sample.

(** * Properties *)

(** ** Reading and writing cells *)

Section GridFacts.
Implicit Types (grid : Grid) (c : coord) (v u : cell).

Lemma grid_get_Some grid c v :
  grid_get grid c = Some v
  ↔ ∃ row, grid !! c.1 = Some row ∧ row !! c.2 = Some v.
Proof.
  unfold grid_get. destruct (grid !! c.1) as [row|]; simpl.
  - split; [eauto | intros (? & [= <-] & ?); done].
  - split; [done | intros (? & [=] & _)].
Qed.

Lemma grid_set_Some grid c v grid' :
  grid_set grid c v = Some grid'
  ↔ ∃ row, grid !! c.1 = Some row ∧ (c.2 < length row)%nat
           ∧ grid' = <[c.1 := <[c.2 := v]> row]> grid.
Proof.
  unfold grid_set. destruct (grid !! c.1) as [row|].
  - case_decide; split.
    + intros [= <-]. eauto.
    + intros (? & [= <-] & _ & ->). done.
    + done.
    + intros (? & [= <-] & ? & _). lia.
  - split; [done | intros (? & [=] & _)].
Qed.

Lemma grid_set_is_Some grid c v u :
  grid_get grid c = Some u → is_Some (grid_set grid c v).
Proof.
  intros (row & Hrow & Hx)%grid_get_Some.
  exists (<[c.1 := <[c.2 := v]> row]> grid).
  apply grid_set_Some. exists row. split_and!; [done | | done].
  by eapply lookup_lt_Some.
Qed.

Lemma grid_set_defined grid c v grid' :
  grid_set grid c v = Some grid' → is_Some (grid_get grid c).
Proof.
  intros (row & Hrow & Hx & _)%grid_set_Some.
  destruct (lookup_lt_is_Some_2 row c.2 Hx) as [u Hu].
  exists u. apply grid_get_Some. eauto.
Qed.

Lemma grid_get_set_eq grid c v grid' :
  grid_set grid c v = Some grid' → grid_get grid' c = Some v.
Proof.
  intros (row & Hrow & Hx & ->)%grid_set_Some.
  apply grid_get_Some. exists (<[c.2 := v]> row). split.
  - apply list_lookup_insert_eq. by eapply lookup_lt_Some.
  - by apply list_lookup_insert_eq.
Qed.

Lemma grid_get_set_ne grid c c' v grid' :
  grid_set grid c v = Some grid' → c ≠ c' →
  grid_get grid' c' = grid_get grid c'.
Proof.
  intros (row & Hrow & Hx & ->)%grid_set_Some Hne.
  unfold grid_get. destruct (decide (c.1 = c'.1)) as [Heq|Hy].
  - rewrite <- Heq, Hrow, list_lookup_insert_eq
      by (by eapply lookup_lt_Some).
    simpl. apply list_lookup_insert_ne.
    intros Hx'. apply Hne. destruct c, c'; simpl in *; congruence.
  - by rewrite list_lookup_insert_ne.
Qed.

Lemma insert_swap_perm {A} (l : list A) (i : nat) (a b : A) :
  l !! i = Some a → a :: <[i := b]> l ≡ₚ b :: l.
Proof.
  intros Hi. rewrite insert_take_drop by (by eapply lookup_lt_Some).
  rewrite <- (take_drop_middle l i a Hi) at 3.
  rewrite !Permutation_middle. apply Permutation_app_head, perm_swap.
Qed.

(** Writing a cell exchanges one value of the grid for another. *)
Lemma grid_set_perm grid c v u grid' :
  grid_set grid c v = Some grid' → grid_get grid c = Some u →
  u :: concat grid' ≡ₚ v :: concat grid.
Proof.
  intros (row & Hrow & Hx & ->)%grid_set_Some
         (row' & Hrow' & Hu)%grid_get_Some.
  assert (row' = row) as -> by congruence.
  rewrite insert_take_drop by (by eapply lookup_lt_Some).
  rewrite <- (take_drop_middle grid c.1 row Hrow) at 3.
  rewrite !concat_app. simpl.
  rewrite !Permutation_middle. apply Permutation_app_head.
  rewrite <- !Permutation_middle, !app_comm_cons.
  apply Permutation_app_tail.
  by apply insert_swap_perm.
Qed.

Lemma grid_set_height grid c v grid' :
  grid_set grid c v = Some grid' → length grid' = length grid.
Proof. intros (row & _ & _ & ->)%grid_set_Some. apply length_insert. Qed.

Lemma grid_set_rect h w grid c v grid' :
  grid_set grid c v = Some grid' → rect h w grid → rect h w grid'.
Proof.
  intros (row & Hrow & _ & ->)%grid_set_Some [Hh Hw]. split.
  - by rewrite length_insert.
  - apply Forall_insert; [done|]. rewrite length_insert.
    by eapply (Forall_lookup_1 _ _ _ _ Hw).
Qed.
End GridFacts.

(** ** Scans of the grid *)

Section Scans.
Context {A B : Type}.

Lemma elem_of_concat_imap (F : nat → A → list B) (l : list A) (x : B) :
  x ∈ concat (imap F l) ↔ ∃ i a, l !! i = Some a ∧ x ∈ F i a.
Proof.
  revert F. induction l as [|a0 l IH]; intros F; simpl.
  - split; [by intros ?%elem_of_nil | by intros ([|?] & ? & ? & _)].
  - rewrite elem_of_app, IH. split.
    + intros [H | (i & a & Hl & Hx)];
        [by exists 0%nat, a0 | by exists (S i), a].
    + intros ([|i] & a & Hl & Hx); simplify_eq/=; [by left|].
      right. by exists i, a.
Qed.

Lemma NoDup_concat_imap (F : nat → A → list B) (l : list A) :
  (∀ i a, l !! i = Some a → NoDup (F i a)) →
  (∀ i j a b x, l !! i = Some a → l !! j = Some b →
                x ∈ F i a → x ∈ F j b → i = j) →
  NoDup (concat (imap F l)).
Proof.
  revert F. induction l as [|a0 l IH]; intros F Hnd Hsep; simpl.
  - constructor.
  - apply NoDup_app. split_and!.
    + by apply (Hnd 0%nat).
    + intros x Hx (j & b & Hl & Hx')%elem_of_concat_imap.
      by specialize (Hsep 0%nat (S j) a0 b x eq_refl Hl Hx Hx').
    + apply IH.
      * intros i a Hl. by apply (Hnd (S i)).
      * intros i j a b x Hi Hj Hx Hx'.
        by specialize (Hsep (S i) (S j) a b x Hi Hj Hx Hx') as [= ->].
Qed.
End Scans.

(** The shape shared by the two scans of the source: the coordinates of
    the cells that pass a test, row by row. *)
Lemma elem_of_scan (f : nat → nat → cell → bool) (grid : Grid) (c : coord) :
  c ∈ concat (imap (λ y_index row,
        concat (imap (λ x_index x,
          if f y_index x_index x then [(y_index, x_index)] else []) row))
        grid)
  ↔ ∃ v, grid_get grid c = Some v ∧ f c.1 c.2 v = true.
Proof.
  rewrite elem_of_concat_imap. split.
  - intros (y & row & Hrow & (x & v & Hv & Hc)%elem_of_concat_imap).
    destruct (f y x v) eqn:Hf; [|by apply elem_of_nil in Hc].
    apply list_elem_of_singleton in Hc as ->. exists v. split; [|done].
    apply grid_get_Some. eauto.
  - intros (v & (row & Hrow & Hv)%grid_get_Some & Hf).
    exists c.1, row. split; [done|]. apply elem_of_concat_imap.
    exists c.2, v. split; [done|]. rewrite Hf.
    destruct c. by apply list_elem_of_singleton.
Qed.

Lemma NoDup_scan (f : nat → nat → cell → bool) (grid : Grid) :
  NoDup (concat (imap (λ y_index row,
        concat (imap (λ x_index x,
          if f y_index x_index x then [(y_index, x_index)] else []) row))
        grid)).
Proof.
  apply NoDup_concat_imap.
  - intros y row _. apply NoDup_concat_imap.
    + intros x v _. destruct (f y x v); [apply NoDup_singleton | constructor].
    + intros x x' v v' c _ _ Hc Hc'.
      destruct (f y x v); [|by apply elem_of_nil in Hc].
      destruct (f y x' v'); [|by apply elem_of_nil in Hc'].
      apply list_elem_of_singleton in Hc, Hc'. congruence.
  - intros y y' row row' c _ _
      (x & v & _ & Hc)%elem_of_concat_imap
      (x' & v' & _ & Hc')%elem_of_concat_imap.
    destruct (f y x v); [|by apply elem_of_nil in Hc].
    destruct (f y' x' v'); [|by apply elem_of_nil in Hc'].
    apply list_elem_of_singleton in Hc, Hc'. congruence.
Qed.

Lemma empty_cells_as_scan (grid : Grid) :
  _get_empty_cells grid
  = concat (imap (λ y_index row,
      concat (imap (λ x_index x,
        if bool_decide (x = EMPTY) then [(y_index, x_index)] else []) row))
      grid).
Proof.
  unfold _get_empty_cells. f_equal. apply imap_ext. intros y row _.
  f_equal. apply imap_ext. intros x v _. simpl.
  by case_bool_decide; case_decide.
Qed.

Lemma elem_of_get_empty_cells (grid : Grid) (c : coord) :
  c ∈ _get_empty_cells grid ↔ grid_get grid c = Some EMPTY.
Proof.
  rewrite empty_cells_as_scan, elem_of_scan. split.
  - intros (v & Hv & ->%bool_decide_eq_true). done.
  - intros Hc. exists EMPTY. split; [done | by apply bool_decide_eq_true].
Qed.

Lemma NoDup_get_empty_cells (grid : Grid) : NoDup (_get_empty_cells grid).
Proof. rewrite empty_cells_as_scan. apply NoDup_scan. Qed.

Lemma elem_of_scan_unhappy (grid : Grid) (same_neighbour : float)
    (c : coord) :
  c ∈ scan_unhappy grid same_neighbour
  ↔ ∃ v, grid_get grid c = Some v
         ∧ is_unhappy grid same_neighbour c.1 c.2 v = true.
Proof. apply elem_of_scan. Qed.

Lemma NoDup_scan_unhappy (grid : Grid) (same_neighbour : float) :
  NoDup (scan_unhappy grid same_neighbour).
Proof. apply (NoDup_scan (is_unhappy grid same_neighbour)). Qed.

Lemma scan_unhappy_occupied (grid : Grid) (same_neighbour : float)
    (c : coord) :
  c ∈ scan_unhappy grid same_neighbour →
  ∃ v, grid_get grid c = Some v ∧ v ≠ EMPTY.
Proof.
  intros (v & Hv & Hu)%elem_of_scan_unhappy. exists v. split; [done|].
  unfold is_unhappy in Hu. by case_decide.
Qed.

(** ** The random primitives *)

Section RandomFacts.
Context {A : Type}.
Implicit Types (seq x : list A) (g : RandomSource).

Lemma randbelow_lt (n : nat) g : (0 < n)%nat → ((randbelow n g).1 < n)%nat.
Proof. intros Hn. simpl. apply Nat.mod_upper_bound. lia. Qed.

Lemma choice_nil g : choice (@nil A) g = (None, g).
Proof. reflexivity. Qed.

Lemma choice_None seq g : (choice seq g).1 = None → seq = [].
Proof.
  destruct seq as [|a seq]; [done|]. unfold choice.
  pose proof (randbelow_lt (length (a :: seq)) g) as Hlt.
  destruct (randbelow _ g) as [i g']. simpl in *.
  intros Hnone%lookup_ge_None. simpl in Hnone. lia.
Qed.

Lemma choice_Some seq g (a : A) :
  (choice seq g).1 = Some a → a ∈ seq.
Proof.
  destruct seq as [|a0 seq]; [done|]. unfold choice.
  destruct (randbelow _ g) as [i g']. simpl.
  apply list_elem_of_lookup_2.
Qed.

Lemma swap_Permutation x (i j : nat) : swap x i j ≡ₚ x.
Proof.
  unfold swap. destruct (x !! i) as [a|] eqn:Hi; [|done].
  destruct (x !! j) as [b|] eqn:Hj; [|done].
  destruct (decide (i = j)) as [->|Hne].
  - assert (a = b) as -> by congruence.
    by rewrite !list_insert_id
      by (rewrite ?list_insert_id by done; done).
  - apply (Permutation_cons_inv (a := b)).
    rewrite insert_swap_perm by (by rewrite list_lookup_insert_ne).
    by apply insert_swap_perm.
Qed.

Lemma shuffle_from_Permutation (i : nat) x g :
  (shuffle_from i x g).1 ≡ₚ x.
Proof.
  revert x g. induction i as [|i IH]; intros x g; [done|].
  simpl. rewrite IH. apply swap_Permutation.
Qed.

(** [shuffle] reorders its argument. *)
Lemma shuffle_Permutation x g : (shuffle x g).1 ≡ₚ x.
Proof. apply shuffle_from_Permutation. Qed.

Context `{EqDecision A}.

Lemma list_remove_Some (a : A) seq :
  a ∈ seq → ∃ seq', list_remove a seq = Some seq' ∧ seq ≡ₚ a :: seq'.
Proof.
  induction seq as [|b seq IH]; [by intros ?%elem_of_nil|].
  intros Hin. simpl. case_decide as Hab.
  - subst. eauto.
  - apply elem_of_cons in Hin as [?|Hin]; [done|].
    destruct (IH Hin) as (seq' & -> & Hperm). eexists. split; [done|].
    rewrite Hperm. apply perm_swap.
Qed.

Lemma list_remove_inv (a : A) seq seq' :
  list_remove a seq = Some seq' → seq ≡ₚ a :: seq'.
Proof.
  revert seq'. induction seq as [|b seq IH]; intros seq'; [done|].
  simpl. case_decide as Hab.
  - intros [= <-]. by subst.
  - destruct (list_remove a seq) as [seq0|]; [|done].
    intros [= <-]. rewrite (IH seq0 eq_refl). apply perm_swap.
Qed.
End RandomFacts.

(** ** One relocation *)

Lemma replays_snoc (grid : Grid) (moves : list Move) (grid1 : Grid)
    (mv : Move) (grid2 : Grid) :
  replays grid moves grid1 → mv_grid mv = grid1 →
  apply_move mv = Some grid2 → replays grid (moves ++ [mv]) grid2.
Proof.
  revert grid. induction moves as [|m moves IH]; simpl; intros grid.
  - intros -> Hg Ha. eauto.
  - intros (Hg & g' & Ha & Hr) Hmv Hap. split; [done|].
    exists g'. split; [done|]. by apply IH.
Qed.

Lemma draws_from_snoc (spots : list coord) (moves : list Move)
    (spots1 : list coord) (mv : Move) (spots2 : list coord) :
  draws_from spots moves spots1 →
  (if mv_rescan mv
   then spots1 = [] ∧ mv_spots mv = _get_empty_cells (mv_grid mv)
   else spots1 ≠ [] ∧ mv_spots mv = spots1) →
  mv_dst mv ∈ mv_spots mv →
  list_remove (mv_dst mv) (mv_spots mv) = Some spots2 →
  draws_from spots (moves ++ [mv]) spots2.
Proof.
  revert spots. induction moves as [|m moves IH]; simpl; intros spots.
  - intros -> Hsp Hin Hrm. eauto.
  - intros (Hsp & Hin & s1 & Hrm & Hd) Hsp' Hin' Hrm'.
    split_and!; [done..|]. exists s1. split; [done|]. by apply IH.
Qed.

Lemma pick_destination_spec (grid : Grid) (spots : list coord)
    (g : RandomSource) :
  match pick_destination grid spots g with
  | (Some (d, used, rescan), _) =>
      d ∈ used
      ∧ if rescan then spots = [] ∧ used = _get_empty_cells grid
        else spots ≠ [] ∧ used = spots
  | (None, _) => spots = [] ∧ _get_empty_cells grid = []
  end.
Proof.
  unfold pick_destination.
  destruct (choice spots g) as [[d|] g'] eqn:H1.
  - assert (d ∈ spots) as Hd by (apply (choice_Some _ g); by rewrite H1).
    split; [done|]. split; [|done]. by intros ->; apply elem_of_nil in Hd.
  - assert (spots = []) as -> by (apply (choice_None _ g); by rewrite H1).
    destruct (choice (_get_empty_cells grid) g') as [[d|] g''] eqn:H2.
    + split; [|done]. apply (choice_Some _ g'). by rewrite H2.
    + split; [done|]. apply (choice_None _ g'). by rewrite H2.
Qed.

(** The body of the loop keeps the invariant; it can only fail, with an
    [IndexError] and before touching the grid, when no cell is empty. *)
Lemma relocate_one_spec (grid0 : Grid) (done rest : list coord)
    (src : coord) (p : Pass) :
  pass_inv grid0 done (src :: rest) p →
  match relocate_one src p with
  | (p', Ok _) => pass_inv grid0 (done ++ [src]) rest p'
  | (p', Raise e) =>
      e = IndexError ∧ _get_empty_cells (p_grid p) = []
      ∧ p_grid p' = p_grid p ∧ p_moves p' = p_moves p
      ∧ pass_inv grid0 done (src :: rest) p'
  end.
Proof.
  intros Inv. unfold relocate_one.
  pose proof (pick_destination_spec (p_grid p) (p_spots p) (p_rng p)) as Hp.
  destruct (pick_destination _ _ _) as [[[[dst used] rescan]|] g'].
  2:{ destruct Hp as [Hsp Hno]. split_and!; try done.
      destruct Inv. constructor; simpl; try done.
      - rewrite Hno. by intros ? ?%elem_of_nil.
      - rewrite Hno. constructor.
      - by rewrite Hno, <- Hsp. }
  destruct Hp as [Hdst Hused].
  destruct (inv_rest_occupied _ _ _ _ Inv src) as (v & Hsrc & Hv & Hsrc0);
    [by left|].
  assert (∀ c, c ∈ used → grid_get (p_grid p) c = Some EMPTY) as Hempty.
  { destruct rescan; destruct Hused as [_ ->].
    - by intros c ?%elem_of_get_empty_cells.
    - apply Inv. }
  assert (NoDup used) as Hnd.
  { destruct rescan; destruct Hused as [_ ->].
    - apply NoDup_get_empty_cells.
    - apply Inv. }
  pose proof (Hempty dst Hdst) as Hdst_empty.
  assert (dst ≠ src) as Hne by congruence.
  rewrite Hsrc.
  destruct (grid_set_is_Some (p_grid p) dst v _ Hdst_empty) as [grid1 Hset1].
  rewrite Hset1.
  assert (grid_get grid1 src = Some v) as Hsrc1
    by (by rewrite (grid_get_set_ne _ _ _ _ _ Hset1 Hne)).
  destruct (grid_set_is_Some grid1 src EMPTY _ Hsrc1) as [grid2 Hset2].
  rewrite Hset2.
  destruct (list_remove_Some dst used Hdst) as (spots' & Hrm & Hperm).
  rewrite Hrm.
  assert ((dst ∉ spots') ∧ NoDup spots') as [Hdst' Hnd'].
  { rewrite Hperm in Hnd. by apply NoDup_cons in Hnd. }
  assert (∀ c, c ≠ src → c ≠ dst →
               grid_get grid2 c = grid_get (p_grid p) c) as Hframe.
  { intros c Hc1 Hc2.
    rewrite (grid_get_set_ne _ _ _ _ _ Hset2) by done.
    by rewrite (grid_get_set_ne _ _ _ _ _ Hset1) by done. }
  assert (grid_get grid2 dst = Some v) as Hdst2.
  { rewrite (grid_get_set_ne _ _ _ _ _ Hset2) by done.
    by apply (grid_get_set_eq _ _ _ _ Hset1). }
  pose proof (grid_get_set_eq _ _ _ _ Hset2) as Hsrc2.
  set (mv := {| mv_grid := p_grid p; mv_spots := used; mv_rescan := rescan;
                mv_src := src; mv_dst := dst |}).
  assert (apply_move mv = Some grid2) as Happly.
  { unfold apply_move. simpl. rewrite Hsrc. simpl. rewrite Hset1. done. }
  assert ((src ∉ rest) ∧ NoDup rest) as [Hsrc_rest Hnd_rest].
  { by apply NoDup_cons, Inv. }
  assert (∀ m, m ∈ p_moves p → mv_dst m ≠ src ∧ mv_dst m ≠ dst) as Hold.
  { intros m Hm.
    destruct (inv_dst_holds _ _ _ _ Inv m Hm) as (Hnin & u & Hu & Hget & _).
    split.
    - intros Heq. apply Hnin. rewrite Heq. by left.
    - intros Heq. rewrite Heq in Hget. congruence. }
  constructor; simpl.
  - intros c Hc.
    assert (c ∈ used) as Hcu by (rewrite Hperm; by right).
    rewrite Hframe; [by apply Hempty | | by intros ->].
    intros ->. specialize (Hempty _ Hcu). congruence.
  - done.
  - done.
  - intros c Hc.
    destruct (inv_rest_occupied _ _ _ _ Inv c) as (u & Hu & Hu' & Hu0);
      [by right|].
    exists u. split_and!; [|done..].
    rewrite Hframe; [done | by intros -> | intros ->; congruence].
  - eapply replays_snoc; [apply Inv | done | done].
  - eapply draws_from_snoc; [apply Inv | | done | done]. simpl.
    destruct rescan; destruct Hused as [H1 H2]; done.
  - apply Forall_app. split; [apply Inv|]. apply Forall_singleton.
    split; [done|]. by exists v.
  - rewrite fmap_app. simpl. f_equal. apply Inv.
  - rewrite fmap_app. simpl. apply NoDup_app. split_and!.
    + apply Inv.
    + intros d (m & -> & Hm)%list_elem_of_fmap Heq%list_elem_of_singleton.
      by destruct (Hold m Hm).
    + apply NoDup_singleton.
  - intros m [Hm | ->%list_elem_of_singleton]%elem_of_app.
    + destruct (Hold m Hm) as [H1 H2].
      destruct (inv_dst_holds _ _ _ _ Inv m Hm) as (Hnin & u & Hu & Hg & H0).
      split; [by intros ?; apply Hnin; right|].
      exists u. split_and!; [done | | done]. by rewrite Hframe.
    + simpl. split; [|by exists v].
      intros Hin.
      destruct (inv_rest_occupied _ _ _ _ Inv dst) as (u & Hu & Hu' & _);
        [by right|]. congruence.
  - intros c Hc Hnin. rewrite fmap_app in Hnin. simpl in Hnin.
    apply not_elem_of_app in Hnin as [Hnin Hcd].
    rewrite list_elem_of_singleton in Hcd.
    destruct (decide (c = src)) as [->|Hcs]; [done|].
    rewrite Hframe by done.
    apply elem_of_app in Hc as [Hc | ->%list_elem_of_singleton]; [|done].
    by apply (inv_done_empty _ _ _ _ Inv).
  - intros i j mi mj Hi Hj Heq.
    apply lookup_app_Some in Hi as [Hi | [Hlen Hi]];
      apply lookup_app_Some in Hj as [Hj | [Hlen' Hj]].
    + by eapply (inv_order _ _ _ _ Inv).
    + by eapply lookup_lt_Some in Hi; lia.
    + apply list_lookup_singleton_Some in Hi as [_ <-]. simpl in Heq.
      apply list_elem_of_lookup_2 in Hj. by destruct (Hold mj Hj).
    + apply list_lookup_singleton_Some in Hi as [_ <-].
      apply list_lookup_singleton_Some in Hj as [_ <-]. done.
  - rewrite <- (inv_perm _ _ _ _ Inv).
    apply (Permutation_cons_inv (a := v)).
    rewrite (grid_set_perm _ _ _ _ _ Hset2 Hsrc1).
    by rewrite (grid_set_perm _ _ _ _ _ Hset1 Hdst_empty).
Qed.

(** ** The relocation loop *)

Lemma relocate_spec (grid0 : Grid) (rest done : list coord) (p : Pass) :
  pass_inv grid0 done rest p →
  ∃ done' rest',
    done ++ rest = done' ++ rest'
    ∧ pass_inv grid0 done' rest' (relocate rest p).1
    ∧ match (relocate rest p).2 with
      | Ok _ => rest' = []
      | Raise e =>
          e = IndexError ∧ rest' ≠ []
          ∧ _get_empty_cells (p_grid (relocate rest p).1) = []
      end.
Proof.
  revert done p. induction rest as [|src rest IH]; intros done p Inv.
  - exists done, []. done.
  - simpl. pose proof (relocate_one_spec _ _ _ _ _ Inv) as Hone.
    destruct (relocate_one src p) as [p' [[]|e]].
    + destruct (IH _ _ Hone) as (done' & rest' & Heq & Inv' & Hres).
      exists done', rest'. split; [|done].
      by rewrite <- Heq, <- app_assoc.
    + destruct Hone as (-> & Hno & Hg & Hm & Inv').
      exists done, (src :: rest). simpl. split_and!; try done.
      by rewrite Hg.
Qed.

Lemma pass_inv_init (grid : Grid) (unhappy_cells : list coord)
    (g : RandomSource) :
  NoDup unhappy_cells →
  (∀ c, c ∈ unhappy_cells → ∃ v, grid_get grid c = Some v ∧ v ≠ EMPTY) →
  pass_inv grid [] unhappy_cells
    {| p_grid := grid; p_spots := _get_empty_cells grid; p_rng := g;
       p_moves := [] |}.
Proof.
  intros Hnd Hocc. constructor; simpl; try done.
  - by intros c ?%elem_of_get_empty_cells.
  - apply NoDup_get_empty_cells.
  - intros c Hc. destruct (Hocc c Hc) as (v & ? & ?). by exists v.
  - constructor.
  - by intros m ?%elem_of_nil.
Qed.

Lemma elem_of_concat_grid (grid : Grid) (v : cell) :
  v ∈ concat grid ↔ ∃ c, grid_get grid c = Some v.
Proof.
  rewrite list_elem_of_In, in_concat. split.
  - intros (row & Hrow%list_elem_of_In & Hv%list_elem_of_In).
    apply list_elem_of_lookup in Hrow as [y Hy].
    apply list_elem_of_lookup in Hv as [x Hx].
    exists (y, x). apply grid_get_Some. eauto.
  - intros (c & (row & Hrow & Hv)%grid_get_Some).
    exists row. split; apply list_elem_of_In;
      by eapply list_elem_of_lookup_2.
Qed.

(** A pass that starts without any empty cell cannot have moved anyone. *)
Lemma pass_inv_no_empty (grid0 : Grid) (done rest : list coord) (p : Pass) :
  pass_inv grid0 done rest p → _get_empty_cells (p_grid p) = [] →
  _get_empty_cells grid0 = [] ∧ p_moves p = [] ∧ p_grid p = grid0.
Proof.
  intros Inv Hno.
  assert (_get_empty_cells grid0 = []) as Hno0.
  { apply elem_of_nil_inv. intros c Hc%elem_of_get_empty_cells.
    assert (EMPTY ∈ concat (p_grid p)) as Hin.
    { rewrite (inv_perm _ _ _ _ Inv). apply elem_of_concat_grid. eauto. }
    apply elem_of_concat_grid in Hin as [c' Hc'].
    apply elem_of_get_empty_cells in Hc'. rewrite Hno in Hc'.
    by apply elem_of_nil in Hc'. }
  split; [done|].
  pose proof (inv_replays _ _ _ _ Inv) as Hrep.
  pose proof (inv_moves_ok _ _ _ _ Inv) as Hok.
  destruct (p_moves p) as [|mv moves]; [done|].
  destruct Hrep as [Hg _]. apply Forall_cons in Hok as [[Hd _] _].
  rewrite Hg in Hd. apply elem_of_get_empty_cells in Hd.
  rewrite Hno0 in Hd. by apply elem_of_nil in Hd.
Qed.

(** What [_update] does: it exits when no cell is unhappy, it aborts with
    an [IndexError] and an untouched grid when some cell is unhappy and no
    cell is empty, and otherwise it processes every unhappy cell, in the
    shuffled order. *)
Lemma _update_spec (grid : Grid) (same_neighbour : float) (g : RandomSource) :
  match _update grid same_neighbour g with
  | (p, Ok n) =>
      ∃ unhappy_cells,
        unhappy_cells = unhappy_set grid same_neighbour g
        ∧ unhappy_cells ≡ₚ scan_unhappy grid same_neighbour
        ∧ unhappy_cells ≠ [] ∧ n = length unhappy_cells
        ∧ _get_empty_cells grid ≠ []
        ∧ pass_inv grid unhappy_cells [] p
  | (p, Raise e) =>
      p_grid p = grid ∧ p_moves p = []
      ∧ ((e = SystemExit 0 ∧ scan_unhappy grid same_neighbour = [])
         ∨ (e = IndexError ∧ scan_unhappy grid same_neighbour ≠ []
            ∧ _get_empty_cells grid = []))
  end.
Proof.
  unfold unhappy_set, _update, _find_unhappy_cells.
  destruct (scan_unhappy grid same_neighbour) as [|c0 cs] eqn:Hscan.
  { split_and!; [done..|]. by left. }
  pose proof (shuffle_Permutation (c0 :: cs) g) as Hperm.
  destruct (shuffle (c0 :: cs) g) as [unhappy_cells g']. simpl in Hperm.
  assert (unhappy_cells ≠ []) as Hne.
  { intros ->. by apply Permutation_nil_cons in Hperm. }
  set (p0 := {| p_grid := grid; p_spots := _get_empty_cells grid;
                p_rng := g'; p_moves := [] |}).
  assert (pass_inv grid [] unhappy_cells p0) as Inv0.
  { apply pass_inv_init.
    - rewrite Hperm, <- Hscan. apply NoDup_scan_unhappy.
    - intros c Hc. apply (scan_unhappy_occupied grid same_neighbour).
      by rewrite Hscan, <- Hperm. }
  destruct (relocate_spec _ _ _ _ Inv0) as (done' & rest' & Heq & Inv & Hres).
  destruct (relocate unhappy_cells p0) as [p [[]|e]]; simpl in *.
  - subst rest'. rewrite app_nil_r in Heq. subst done'.
    exists unhappy_cells. split_and!; try done.
    intros Hno. destruct unhappy_cells as [|c cs']; [done|].
    pose proof (inv_sources _ _ _ _ Inv) as Hsrc.
    pose proof (inv_replays _ _ _ _ Inv) as Hrep.
    pose proof (inv_moves_ok _ _ _ _ Inv) as Hok.
    destruct (p_moves p) as [|mv moves]; [done|].
    destruct Hrep as [Hg _]. apply Forall_cons in Hok as [[Hd _] _].
    rewrite Hg in Hd. apply elem_of_get_empty_cells in Hd.
    rewrite Hno in Hd. by apply elem_of_nil in Hd.
  - destruct Hres as (-> & Hrest & Hno).
    destruct (pass_inv_no_empty _ _ _ _ Inv Hno) as (Hno0 & Hm & Hg).
    split_and!; [done..|]. right. done.
Qed.

(** ** Conservation *)

Lemma perm_same_population (grid grid' : Grid) :
  concat grid' ≡ₚ concat grid → same_population grid grid'.
Proof.
  intros Hperm. unfold same_population, occupied_values, count_empty.
  by rewrite Hperm.
Qed.

Lemma perm_no_empty (grid grid' : Grid) :
  concat grid' ≡ₚ concat grid →
  _get_empty_cells grid' = [] → _get_empty_cells grid = [].
Proof.
  intros Hperm Hno. apply elem_of_nil_inv.
  intros c Hc%elem_of_get_empty_cells.
  assert (EMPTY ∈ concat grid') as Hin.
  { rewrite Hperm. apply elem_of_concat_grid. eauto. }
  apply elem_of_concat_grid in Hin as [c' Hc'].
  apply elem_of_get_empty_cells in Hc'. rewrite Hno in Hc'.
  by apply elem_of_nil in Hc'.
Qed.

Lemma _update_perm (grid : Grid) (same_neighbour : float) (g : RandomSource) :
  concat (p_grid (_update grid same_neighbour g).1) ≡ₚ concat grid.
Proof.
  pose proof (_update_spec grid same_neighbour g) as Hspec.
  destruct (_update grid same_neighbour g) as [p [n|e]]; simpl.
  - destruct Hspec as (? & _ & _ & _ & _ & _ & Inv). apply Inv.
  - destruct Hspec as (-> & _). done.
Qed.

(** ** The simulation loop *)

(** Once a frame has been written the animation can be assembled. *)
Lemma save_gif_snoc (a : ArgParser) (frames : list (Z * Grid))
    (fr : Z * Grid) :
  save_gif_unless_no_gif a (frames ++ [fr]) = Ok tt.
Proof.
  unfold save_gif_unless_no_gif. destruct (no_gif a); [done|].
  by destruct frames.
Qed.

Lemma run_loop_spec (fuel : nat) (it : iterator) (r : Run) :
  ∃ new,
    r_frames (run_loop fuel it r).1 = r_frames r ++ new
    ∧ r_updates (run_loop fuel it r).1 = (r_updates r + length new)%nat
    ∧ (length new ≤ fuel)%nat
    ∧ args (r_model (run_loop fuel it r).1) = args (r_model r)
    ∧ concat (grid (r_model (run_loop fuel it r).1))
        ≡ₚ concat (grid (r_model r))
    ∧ Forall (λ fr, concat fr.2 ≡ₚ concat (grid (r_model r))) new
    ∧ iteration (r_model (run_loop fuel it r).1)
      = match new with
        | [] => iteration (r_model r)
        | _ :: _ => first_index it + Z.of_nat (length new) - 1
        end
    ∧ (∀ start stop, it = range start stop →
         Z.of_nat (length new) ≤ Z.max 0 (stop - start))
    ∧ match (run_loop fuel it r).2 with
      | Finished =>
          ∃ start stop, it = range start stop
                        ∧ Z.of_nat (length new) = Z.max 0 (stop - start)
      | Running => length new = fuel
      | Exited code =>
          code = 0 ∧ new ≠ []
          ∧ scan_unhappy (grid (r_model (run_loop fuel it r).1))
              (same_neighbour (args (r_model r))) = []
      | Crashed e =>
          e = IndexError ∧ new ≠ []
          ∧ _get_empty_cells (grid (r_model r)) = []
          ∧ scan_unhappy (grid (r_model (run_loop fuel it r).1))
              (same_neighbour (args (r_model r))) ≠ []
      end.
Proof.
  revert it r. induction fuel as [|fuel IH]; intros it r.
  { exists []. simpl. rewrite app_nil_r, Nat.add_0_r.
    split_and!; try done. intros; lia. }
  simpl. destruct (next it) as [[i it']|] eqn:Hnext.
  2:{ exists []. simpl. rewrite app_nil_r, Nat.add_0_r.
      destruct it as [start stop|start]; simpl in Hnext; [|done].
      case_match eqn:Hlt; [done|]. apply Z.ltb_ge in Hlt.
      split_and!; try done; [lia | intros ?? [= <- <-]; lia |].
      exists start, stop. split; [done|]. simpl. lia. }
  assert (i = first_index it ∧ first_index it' = i + 1
          ∧ (∀ start stop, it = range start stop →
               start < stop ∧ it' = range (start + 1) stop)
          ∧ (∀ start, it = count start → it' = count (start + 1)))
    as (Hi & Hi' & Hrange & Hcount).
  { destruct it as [start stop|start]; simpl in Hnext.
    - case_match eqn:Hlt; [|done]. apply Z.ltb_lt in Hlt.
      injection Hnext as <- <-. split_and!; try done.
      by intros ?? [= <- <-].
    - injection Hnext as <- <-. split_and!; try done.
      by intros ? [= <-]. }
  pose proof (_update_spec (grid (r_model r))
                (same_neighbour (args (r_model r))) (r_rng r)) as Hspec.
  pose proof (_update_perm (grid (r_model r))
                (same_neighbour (args (r_model r))) (r_rng r)) as Hperm.
  destruct (_update _ _ _) as [p [n|e]]; simpl in Hperm.
  - match goal with |- context [run_loop fuel it' ?r1] =>
      destruct (IH it' r1) as
        (new & Hfr & Hup & Hlen & Hargs & Hgrid & Hall & Hiter & Hbound & Ho)
    end.
    simpl in *.
    exists ((i, grid (r_model r)) :: new).
    rewrite Hfr, Hup, Hargs, Hgrid, Hperm, Hiter. simpl length.
    split_and!.
    + by rewrite <- app_assoc.
    + lia.
    + lia.
    + done.
    + done.
    + constructor; [done|].
      eapply Forall_impl; [apply Hall|]. simpl. intros fr ->. done.
    + destruct new; simpl length; lia.
    + intros start stop Hit. destruct (Hrange _ _ Hit) as [Hlt ->].
      specialize (Hbound _ _ eq_refl). lia.
    + destruct (run_loop fuel it' _).2 as [|code|e|]; simpl in *.
      * destruct Ho as (start & stop & -> & Hn).
        destruct it as [start0 stop0|start0]; simpl in Hnext.
        -- destruct (start0 <? stop0) eqn:Hlt; [|done].
           apply Z.ltb_lt in Hlt. simplify_eq.
           exists start0, stop. split; [done|]. lia.
        -- simplify_eq.
      * destruct Ho as (-> & Hne & Hscan). done.
      * destruct Ho as (-> & Hne & Hno & Hscan).
        destruct Hspec as (? & _ & _ & _ & _ & Hsome & _).
        by apply (perm_no_empty _ _ Hperm) in Hno.
      * lia.
  - destruct Hspec as (Hg & Hm & Hcase). simpl in *.
    exists [(i, grid (r_model r))].
    assert (∀ start stop, it = range start stop →
              Z.of_nat 1 ≤ Z.max 0 (stop - start)) as Hb.
    { intros start stop Hit. destruct (Hrange _ _ Hit). lia. }
    destruct Hcase as [[-> Hscan] | (-> & Hscan & Hno)];
      rewrite ?save_gif_snoc; simpl;
      rewrite ?Hg; split_and!; try done; try lia;
      by apply Forall_singleton.
Qed.

Lemma run_fst (fuel : nat) (m : SocialSegregation) (g : RandomSource) :
  (run fuel m g).1
  = (run_loop fuel (run_iterator (args m))
       {| r_model := m; r_rng := g; r_frames := []; r_updates := 0 |}).1.
Proof. unfold run. by destruct (run_loop _ _ _). Qed.

Lemma run_snd (fuel : nat) (m : SocialSegregation) (g : RandomSource) :
  (run fuel m g).2
  = after_loop (args m) (run fuel m g).1
      (run_loop fuel (run_iterator (args m))
         {| r_model := m; r_rng := g; r_frames := []; r_updates := 0 |}).2.
Proof. unfold run. by destruct (run_loop _ _ _). Qed.


(** ** The model on sample inputs *)

Example neighbours_corner :
  _get_neighbours [[2; 3; -1]; [3; -1; 2]] 0 0 = [3; 3; -1].
Proof. vm_compute. reflexivity. Qed.

Example scan_example :
  scan_unhappy [[2; 3; -1]; [3; -1; 2]] Sample.f04
    = [(0, 0); (0, 1); (1, 2)]%nat
  ∧ _get_empty_cells [[2; 3; -1]; [3; -1; 2]] = [(0, 2); (1, 1)]%nat.
Proof. vm_compute. split; reflexivity. Qed.

(** [5 * 0.2 == 1.0] in binary64, although the real product of the float
    [0.2] by five is above one. *)
Example float_product_rounds :
  PyFloat.mul (PyFloat.of_int 5) (PyFloat.ratio 1 5) = PyFloat.of_int 1.
Proof. vm_compute. reflexivity. Qed.

(** With one empty cell and two unhappy agents the working list runs out
    after the first move; the second agent lands on the cell the first one
    left. *)
Example update_row3 :
  let '(p, res) := _update Sample.row3 Sample.f05 (Sample.source []) in
  res = Ok 2%nat
  ∧ p_grid p = [[-1; 2; 3]]
  ∧ (λ mv, (mv_src mv, mv_dst mv, mv_rescan mv)) <$> p_moves p
    = [((0, 1), (0, 2), false); ((0, 0), (0, 1), true)]%nat.
Proof. vm_compute. split_and!; reflexivity. Qed.

Example update_full :
  let '(p, res) := _update Sample.full Sample.f05 (Sample.source []) in
  res = Raise IndexError ∧ p_grid p = Sample.full.
Proof. vm_compute. split; reflexivity. Qed.

Example init_example :
  (__init__ (Sample.config 3 2 2 (-1) Sample.f05 Sample.f04)
            (Sample.generators [] [0; 1; 1; 0; 1; 0; 3; 1]%nat)).1
  = Ok (Sample.model (Sample.config 3 2 2 (-1) Sample.f05 Sample.f04)
          [[2; 3; -1]; [2; -1; -1]]).
Proof. vm_compute. reflexivity. Qed.

(** ** What a recorded move does *)

Lemma apply_move_spec (mv : Move) :
  move_ok mv →
  mv_dst mv ≠ mv_src mv
  ∧ ∃ v grid',
      v ≠ EMPTY
      ∧ grid_get (mv_grid mv) (mv_src mv) = Some v
      ∧ apply_move mv = Some grid'
      ∧ grid_get grid' (mv_dst mv) = Some v
      ∧ grid_get grid' (mv_src mv) = Some EMPTY
      ∧ ∀ c, c ≠ mv_src mv → c ≠ mv_dst mv →
             grid_get grid' c = grid_get (mv_grid mv) c.
Proof.
  intros (Hdst & v & Hsrc & Hv).
  assert (mv_dst mv ≠ mv_src mv) as Hne by (intros Heq; congruence).
  split; [done|]. unfold apply_move. rewrite Hsrc. simpl.
  destruct (grid_set_is_Some _ _ v _ Hdst) as [grid1 Hset1].
  rewrite Hset1. simpl.
  assert (grid_get grid1 (mv_src mv) = Some v) as Hsrc1
    by (by rewrite (grid_get_set_ne _ _ _ _ _ Hset1 Hne)).
  destruct (grid_set_is_Some _ _ EMPTY _ Hsrc1) as [grid2 Hset2].
  exists v, grid2. split_and!; try done.
  - rewrite (grid_get_set_ne _ _ _ _ _ Hset2) by done.
    by apply (grid_get_set_eq _ _ _ _ Hset1).
  - by apply (grid_get_set_eq _ _ _ _ Hset2).
  - intros c Hc1 Hc2.
    rewrite (grid_get_set_ne _ _ _ _ _ Hset2) by done.
    by rewrite (grid_get_set_ne _ _ _ _ _ Hset1) by done.
Qed.

(** The moves of a pass, whether it completes or not, form an execution
    from the initial grid in which every move is to an empty cell, the
    working list evolves as [draws_from] describes, and no destination
    occurs twice. *)
Lemma _update_trace (grid0 : Grid) (same_neighbour : float)
    (g : RandomSource) :
  replays grid0 (p_moves (_update grid0 same_neighbour g).1)
          (p_grid (_update grid0 same_neighbour g).1)
  ∧ Forall move_ok (p_moves (_update grid0 same_neighbour g).1)
  ∧ NoDup (mv_dst <$> p_moves (_update grid0 same_neighbour g).1)
  ∧ ∃ spots',
      draws_from (_get_empty_cells grid0)
                 (p_moves (_update grid0 same_neighbour g).1) spots'.
Proof.
  pose proof (_update_spec grid0 same_neighbour g) as Hspec.
  destruct (_update grid0 same_neighbour g) as [p [n|e]]; simpl.
  - destruct Hspec as (u & _ & _ & _ & _ & _ & Inv).
    split_and!; [apply Inv..|]. exists (p_spots p). apply Inv.
  - destruct Hspec as (-> & -> & _). simpl.
    split_and!; [done | constructor | constructor | by eexists].
Qed.

(** ** The neighbourhood and the test *)

Lemma seqZ_3 (m : Z) : seqZ m 3 = [m; m + 1; m + 2].
Proof.
  unfold seqZ. simpl.
  repeat (apply (f_equal2 cons); [lia|]). done.
Qed.

(** A cell has at most eight neighbours. *)
Lemma length_get_neighbours (grid : Grid) (row_number column_number : nat) :
  (length (_get_neighbours grid row_number column_number) ≤ 8)%nat.
Proof.
  unfold _get_neighbours. rewrite !seqZ_3. simpl.
  replace (Z.of_nat row_number - 1 + 1) with (Z.of_nat row_number) by lia.
  replace (Z.of_nat column_number - 1 + 1) with (Z.of_nat column_number)
    by lia.
  rewrite !Z.eqb_refl. simpl. rewrite andb_false_r, !app_nil_r.
  rewrite !length_app.
  repeat match goal with
  | |- context [length (if ?b then ?l else [])] =>
      let H := fresh in
      assert (length (if b then l else []) ≤ 1)%nat as H
        by (destruct b; [case_match|]; simpl; lia);
      generalize dependent (length (if b then l else []))
  end.
  intros. simpl. lia.
Qed.

Lemma length_not_empty_neighbours (grid : Grid) (y_index x_index : nat) :
  (length (not_empty_neighbours grid y_index x_index) ≤ 8)%nat.
Proof.
  unfold not_empty_neighbours.
  etrans; [apply length_filter | apply length_get_neighbours].
Qed.

(** The redundant [if i != -1] of the sum changes nothing: the count is
    the number of occupied neighbours of the cell's own type. *)
Lemma same_count_occupied (grid : Grid) (y_index x_index : nat)
    (current : cell) :
  same_count current (not_empty_neighbours grid y_index x_index)
  = length (filter (λ i, i = current)
              (not_empty_neighbours grid y_index x_index)).
Proof.
  unfold same_count, not_empty_neighbours. f_equal. f_equal.
  rewrite list_filter_filter. apply list_filter_iff. tauto.
Qed.

Lemma elem_of_unhappy_set (grid : Grid) (same_neighbour : float)
    (g : RandomSource) (c : coord) :
  c ∈ unhappy_set grid same_neighbour g
  ↔ c ∈ scan_unhappy grid same_neighbour.
Proof.
  unfold unhappy_set, _find_unhappy_cells.
  destruct (scan_unhappy grid same_neighbour) as [|c0 cs]; [done|].
  pose proof (shuffle_Permutation (c0 :: cs) g) as Hperm.
  destruct (shuffle (c0 :: cs) g) as [l g']. simpl in *. by rewrite Hperm.
Qed.

Lemma float_eqb_not_ltb (a b : float) :
  PyFloat.eqb a b = true → PyFloat.ltb a b = false.
Proof.
  unfold PyFloat.eqb, PyFloat.ltb, SFeqb, SFltb.
  by destruct (SFcompare a b) as [[]|].
Qed.

(** For at most eight neighbours, the float product of the number of
    neighbours by the float quotient [k / n] is never above [k]. *)
Lemma fraction_not_below (k n : nat) :
  (k ≤ n)%nat → (1 ≤ n ≤ 8)%nat →
  PyFloat.ltb (PyFloat.of_int (Z.of_nat k))
    (PyFloat.mul (PyFloat.of_int (Z.of_nat n))
       (PyFloat.div (PyFloat.of_int (Z.of_nat k))
                    (PyFloat.of_int (Z.of_nat n)))) = false.
Proof.
  intros Hk Hn.
  assert (forallb (λ n, forallb (λ k,
            negb (PyFloat.ltb (PyFloat.of_int (Z.of_nat k))
              (PyFloat.mul (PyFloat.of_int (Z.of_nat n))
                 (PyFloat.div (PyFloat.of_int (Z.of_nat k))
                              (PyFloat.of_int (Z.of_nat n))))))
            (seq 0 (S n))) (seq 1 8) = true) as Hall
    by (vm_compute; reflexivity).
  rewrite forallb_forall in Hall.
  specialize (Hall n). rewrite forallb_forall in Hall.
  apply negb_true_iff, Hall; apply in_seq; lia.
Qed.

(** With no occupied neighbour the test is false for every float. *)
Lemma unhappy_test_nil (same_neighbour : float) (current : cell) :
  unhappy_test same_neighbour current [] = false.
Proof. by destruct same_neighbour as [[]|[]| |[]]. Qed.

(** ** Construction of the grid *)

Lemma randint_range (low high : Z) (g : RandomSource) :
  low < high → low ≤ (randint low high g).1 < high.
Proof.
  intros Hlt. unfold randint.
  pose proof (randbelow_lt (Z.to_nat (high - low)) g) as Hr.
  destruct (randbelow _ g) as [r g']. simpl in *. lia.
Qed.

Lemma randint_row_spec (low high : Z) (w : nat) (g : RandomSource) :
  low < high →
  length (randint_row low high w g).1 = w
  ∧ Forall (λ v, low ≤ v < high) (randint_row low high w g).1.
Proof.
  intros Hlt. revert g. induction w as [|w IH]; intros g;
    cbn [randint_row].
  { split; [done | constructor]. }
  pose proof (randint_range low high g Hlt) as Hv.
  destruct (randint low high g) as [v g1].
  destruct (IH g1) as [Hlen Hall].
  destruct (randint_row low high w g1) as [row g2]. simpl in *.
  split; [simpl; lia | by constructor].
Qed.

Lemma randint_grid_spec (low high : Z) (h w : nat) (g : RandomSource) :
  low < high →
  rect h w (randint_grid low high h w g).1
  ∧ Forall (λ v, low ≤ v < high) (concat (randint_grid low high h w g).1).
Proof.
  intros Hlt. revert g. induction h as [|h IH]; intros g;
    cbn [randint_grid].
  { split; [split|]; constructor. }
  destruct (randint_row_spec low high w g Hlt) as [Hlen Hrow].
  destruct (randint_row low high w g) as [row g1].
  destruct (IH g1) as [[Hh Hw] Hall].
  destruct (randint_grid low high h w g1) as [rows g2]. simpl in *.
  split; [split|].
  - simpl. lia.
  - by constructor.
  - by apply Forall_app.
Qed.

Lemma rect_size (h w : nat) (grid0 : Grid) :
  rect h w grid0 → grid_size grid0 = (h * w)%nat.
Proof.
  intros [<- Hw]. unfold grid_size.
  induction grid0 as [|row rows IH]; [done|].
  apply Forall_cons in Hw as [Hrow Hw]. simpl.
  rewrite length_app, IH by done. lia.
Qed.

Lemma rect_get (h w : nat) (grid0 : Grid) (y x : nat) :
  rect h w grid0 → (y < h)%nat → (x < w)%nat →
  is_Some (grid_get grid0 (y, x)).
Proof.
  intros [Hh Hw] Hy Hx.
  destruct (lookup_lt_is_Some_2 grid0 y) as [row Hrow]; [lia|].
  pose proof (Forall_lookup_1 _ _ _ _ Hw Hrow) as Hlen. simpl in Hlen.
  destruct (lookup_lt_is_Some_2 row x) as [v Hv]; [lia|].
  exists v. apply grid_get_Some. eauto.
Qed.

Lemma flat_coord_inj (w i j : nat) :
  (0 < w)%nat →
  ((i / w)%nat, (i mod w)%nat) = ((j / w)%nat, (j mod w)%nat) → i = j.
Proof.
  intros Hw [= Hq Hr].
  rewrite (Nat.div_mod_eq i w), (Nat.div_mod_eq j w). congruence.
Qed.

Lemma count_empty_set (grid0 grid1 : Grid) (c : coord) (u : cell) :
  grid_set grid0 c EMPTY = Some grid1 → grid_get grid0 c = Some u →
  u ≠ EMPTY → count_empty grid1 = S (count_empty grid0).
Proof.
  intros Hset Hget Hu. unfold count_empty.
  pose proof (grid_set_perm _ _ _ _ _ Hset Hget) as Hperm.
  apply (filter_Permutation (λ v, v = EMPTY)) in Hperm.
  apply Permutation_length in Hperm.
  rewrite filter_cons_False, filter_cons_True in Hperm by done.
  simpl in Hperm. lia.
Qed.

Lemma flat_assign_cons (w i : nat) (indices : list nat) (v : cell)
    (grid0 : Grid) :
  flat_assign w (i :: indices) v grid0
  = match grid_set grid0 ((i / w)%nat, (i mod w)%nat) v with
    | Some grid1 => flat_assign w indices v grid1
    | None => None
    end.
Proof.
  unfold flat_assign. simpl.
  destruct (grid_set grid0 _ v) as [grid1|]; [done|].
  induction indices as [|j indices IH]; [done|]. simpl. apply IH.
Qed.

(** Writing [-1] at distinct flat indices of an array without empty cells
    empties exactly that many cells and leaves the other values alone. *)
Lemma flat_assign_spec (h w : nat) (indices : list nat) (grid0 : Grid) :
  rect h w grid0 → NoDup indices →
  (∀ i, i ∈ indices → (i < h * w)%nat) →
  (∀ i, i ∈ indices →
        grid_get grid0 ((i / w)%nat, (i mod w)%nat) ≠ Some EMPTY) →
  ∃ grid1,
    flat_assign w indices EMPTY grid0 = Some grid1
    ∧ rect h w grid1
    ∧ count_empty grid1 = (count_empty grid0 + length indices)%nat
    ∧ ∀ v, v ∈ concat grid1 → v = EMPTY ∨ v ∈ concat grid0.
Proof.
  revert grid0. induction indices as [|i indices IH];
    intros grid0 Hrect Hnd Hlt Hocc.
  { exists grid0. split_and!; [done | done | simpl; lia | by right]. }
  apply NoDup_cons in Hnd as [Hi Hnd].
  assert (0 < w ∧ i / w < h ∧ i mod w < w)%nat as (Hw & Hy & Hx).
  { specialize (Hlt i (list_elem_of_here _ _)).
    assert (0 < w)%nat by (destruct w; lia).
    split_and!; [done | | by apply Nat.mod_upper_bound; lia].
    apply Nat.Div0.div_lt_upper_bound. lia. }
  destruct (rect_get h w grid0 _ _ Hrect Hy Hx) as [u Hu].
  destruct (grid_set_is_Some grid0 _ EMPTY _ Hu) as [grid1 Hset].
  rewrite flat_assign_cons, Hset.
  destruct (IH grid1) as (grid2 & Hfa & Hrect2 & Hcount & Hvals).
  - by eapply grid_set_rect.
  - done.
  - intros j Hj. apply Hlt. by right.
  - intros j Hj.
    rewrite (grid_get_set_ne _ _ _ _ _ Hset).
    + apply Hocc. by right.
    + intros Heq%(flat_coord_inj w); [|done]. by subst.
  - exists grid2. split_and!; [done | done | |].
    + rewrite Hcount. erewrite (count_empty_set grid0 grid1); [simpl; lia |
        done | done |].
      intros ->. by apply (Hocc i); [left|].
    + intros v Hv. destruct (Hvals v Hv) as [?|Hin]; [by left|].
      destruct (decide (v = EMPTY)) as [?|Hne]; [by left|]. right.
      assert (v :: concat grid0 ≡ₚ v :: concat grid0) as _ by done.
      pose proof (grid_set_perm _ _ _ _ _ Hset Hu) as Hperm.
      assert (v ∈ u :: concat grid1) as Hin' by (by right).
      rewrite Hperm in Hin'. by apply elem_of_cons in Hin' as [?|?].
Qed.

Lemma binary_round_aux_sign (sx : bool) (mx ex : Z) (lx : location) :
  match binary_round_aux PyFloat.prec PyFloat.emax sx mx ex lx with
  | S754_zero s | S754_infinity s | S754_finite s _ _ => s = sx
  | S754_nan => True
  end.
Proof.
  unfold binary_round_aux.
  destruct (shr_fexp _ _ mx ex lx) as [mrs' e'].
  destruct (shr_fexp _ _ _ e' loc_Exact) as [mrs'' e''].
  destruct (shr_m mrs''); [done | | done]. by destruct (Z.leb _ _).
Qed.

Lemma to_int_nonneg (f : float) (n : Z) :
  match f with
  | S754_zero _ | S754_nan => True
  | S754_infinity s | S754_finite s _ _ => s = false
  end →
  PyFloat.to_int f = Some n → 0 ≤ n.
Proof.
  destruct f as [s|s| |s m e]; simpl; [|done..|].
  - intros _ [= <-]. done.
  - intros -> [= <-]. case_match.
    + apply Z.shiftl_nonneg. lia.
    + apply Z.shiftr_nonneg. lia.
Qed.

(** [int(percent_empty * size)] is not negative when [percent_empty] has
    passed the check [percent_empty < 0]. *)
Lemma num_empty_nonneg (a : ArgParser) (size : nat) (n : Z) :
  PyFloat.ltb (percent_empty a) (PyFloat.of_int 0) = false →
  num_empty a size = Some n → 0 ≤ n.
Proof.
  unfold num_empty. intros Hp. apply to_int_nonneg.
  assert (match PyFloat.of_int (Z.of_nat size) with
          | S754_zero s | S754_infinity s | S754_finite s _ _ => s = false
          | S754_nan => True
          end) as Hs.
  { unfold PyFloat.of_int, binary_normalize.
    destruct (Z.of_nat size) as [|p|p] eqn:Hsz; [done | | lia].
    unfold binary_round. destruct (shl_align _ _ _) as [mz ez].
    apply binary_round_aux_sign. }
  destruct (percent_empty a) as [sp|sp| |sp mp ep];
    destruct (PyFloat.of_int (Z.of_nat size)) as [ss|ss| |ss ms es];
    simpl in *; try done;
    (destruct sp; [by vm_compute in Hp|]); subst ss; simpl; try done.
  pose proof (binary_round_aux_sign false (Z.pos (mp * ms)) (ep + es)
                loc_Exact) as Hsign.
  by destruct (binary_round_aux _ _ false _ _ _).
Qed.

Lemma count_empty_agents (grid0 : Grid) :
  Forall (λ v, 2 ≤ v) (concat grid0) → count_empty grid0 = 0%nat.
Proof.
  intros Hall. unfold count_empty.
  induction (concat grid0) as [|v l IH]; [done|].
  apply Forall_cons in Hall as [Hv Hall].
  rewrite filter_cons_False by (unfold EMPTY; lia). by apply IH.
Qed.

(** ** Convergence *)

(** A frame that shows a grid without any unhappy cell is the last one:
    the call of [_update] that follows it exits with status 0 and leaves
    the grid as the frame shows it.  The loop exits in no other way. *)
Lemma run_loop_convergence (fuel : nat) (it : iterator) (r : Run) :
  ∃ new,
    r_frames (run_loop fuel it r).1 = r_frames r ++ new
    ∧ (∀ k fr, new !! k = Some fr →
         scan_unhappy fr.2 (same_neighbour (args (r_model r))) = [] →
         S k = length new
         ∧ (run_loop fuel it r).2 = Exited 0
         ∧ grid (r_model (run_loop fuel it r).1) = fr.2)
    ∧ (∀ code, (run_loop fuel it r).2 = Exited code →
         ∃ fr, last new = Some fr
               ∧ scan_unhappy fr.2 (same_neighbour (args (r_model r)))
                 = []).
Proof.
  revert it r. induction fuel as [|fuel IH]; intros it r.
  { exists []. simpl. rewrite app_nil_r. split_and!; done. }
  simpl. destruct (next it) as [[i it']|].
  2:{ exists []. simpl. rewrite app_nil_r. split_and!; done. }
  pose proof (_update_spec (grid (r_model r))
                (same_neighbour (args (r_model r))) (r_rng r)) as Hspec.
  destruct (_update _ _ _) as [p [n|e]].
  - destruct Hspec as (u & _ & Hperm & Hne & _).
    assert (scan_unhappy (grid (r_model r))
              (same_neighbour (args (r_model r))) ≠ []) as Hscan.
    { intros Heq. rewrite Heq in Hperm.
      by apply Permutation_nil_r in Hperm. }
    match goal with |- context [run_loop fuel it' ?r1] =>
      destruct (IH it' r1) as (new & Hfr & Hstop & Hexit)
    end.
    simpl in *. exists ((i, grid (r_model r)) :: new).
    split_and!.
    + by rewrite Hfr, <- app_assoc.
    + intros [|k] fr Hk Hnone; simpl in Hk.
      * by injection Hk as <-.
      * destruct (Hstop k fr Hk Hnone) as (Hlen & ? & ?).
        split_and!; [simpl; lia | done | done].
    + intros code Hcode. destruct (Hexit code Hcode) as (fr & Hlast & ?).
      exists fr. split; [|done].
      destruct new as [|fr0 new]; [done|]. done.
  - destruct Hspec as (Hg & _ & Hcase). simpl in *.
    exists [(i, grid (r_model r))].
    destruct Hcase as [[-> Hscan] | (-> & Hscan & _)];
      rewrite ?save_gif_snoc; simpl.
    + split_and!; [done | | by eauto].
      intros [|k] fr Hk _; simpl in Hk; [|done].
      injection Hk as <-. by rewrite Hg.
    + split_and!; [done | | done].
      intros [|k] fr Hk Hnone; simpl in Hk; [|done].
      by injection Hk as <-.
Qed.

(** How [run] ends, from how its loop ends. *)
Lemma run_outcome (fuel : nat) (m : SocialSegregation) (g : RandomSource) :
  (run fuel m g).2
  = match (run_loop fuel (run_iterator (args m))
             {| r_model := m; r_rng := g; r_frames := [];
                r_updates := 0 |}).2 with
    | Finished =>
        if no_gif (args m) then Finished
        else match r_frames (run fuel m g).1 with
             | [] => Crashed ValueError
             | _ :: _ => Finished
             end
    | o => o
    end.
Proof.
  rewrite run_snd. unfold after_loop, save_gif_unless_no_gif, _save_gif.
  destruct (run_loop _ _ _).2; try done.
  destruct (no_gif (args m)); [done|].
  by destruct (r_frames _).
Qed.

(** ** Runs from generators that deliver the same draws *)

Lemma same_draws_refl (g : RandomSource) : same_draws g g.
Proof. by intros i. Qed.

















(** ** The exchange loop on given numbers *)

Lemma advance_0 (g : RandomSource) : advance 0 g = g.
Proof. destruct g as [d c]. unfold advance. simpl. f_equal. lia. Qed.

Lemma advance_randbelow (n k : nat) (g : RandomSource) :
  advance k (randbelow n g).2 = advance (S k) g.
Proof. unfold advance. simpl. f_equal. lia. Qed.

Lemma exchange_draws_in_range (i : nat) (g : RandomSource) :
  choices_in_range i (exchange_draws i g).
Proof.
  revert g. induction i as [|i IH]; intros g; [done|].
  cbn [exchange_draws].
  pose proof (randbelow_lt (S (S i)) g) as Hlt.
  destruct (randbelow (S (S i)) g) as [j g']. simpl in *.
  split; [lia | apply IH].
Qed.

Section Exchange.
Context {A : Type}.
Implicit Types x y : list A.

Lemma shuffle_from_with (i : nat) x (g : RandomSource) :
  shuffle_from i x g = (shuffle_with i (exchange_draws i g) x, advance i g).
Proof.
  revert x g. induction i as [|i IH]; intros x g.
  { simpl. by rewrite advance_0. }
  cbn [shuffle_from exchange_draws].
  pose proof (advance_randbelow (S (S i)) i g) as Hadv.
  destruct (randbelow (S (S i)) g) as [j g']. simpl in Hadv.
  rewrite IH. cbn [shuffle_with]. by rewrite Hadv.
Qed.

Lemma length_swap x (i j : nat) : length (swap x i j) = length x.
Proof. apply Permutation_length, swap_Permutation. Qed.

Lemma swap_lookup x (i j : nat) :
  (i < length x)%nat → (j < length x)%nat → swap x i j !! i = x !! j.
Proof.
  intros Hi Hj. unfold swap.
  destruct (lookup_lt_is_Some_2 x i Hi) as [a Ha].
  destruct (lookup_lt_is_Some_2 x j Hj) as [b Hb].
  rewrite Ha, Hb. destruct (decide (i = j)) as [->|Hne].
  - rewrite list_lookup_insert_eq by (by rewrite length_insert). congruence.
  - rewrite list_lookup_insert_ne by done.
    by rewrite list_lookup_insert_eq.
Qed.

Lemma swap_lookup_ne x (i j k : nat) :
  k ≠ i → k ≠ j → swap x i j !! k = x !! k.
Proof.
  intros Hi Hj. unfold swap.
  destruct (x !! i) as [a|]; [|done]. destruct (x !! j) as [b|]; [|done].
  by rewrite !list_lookup_insert_ne.
Qed.

Lemma shuffle_with_Permutation (i : nat) (js : list nat) x :
  shuffle_with i js x ≡ₚ x.
Proof.
  revert js x. induction i as [|i IH]; intros js x; [done|].
  destruct js as [|j js]; [done|]. cbn [shuffle_with].
  by rewrite IH, swap_Permutation.
Qed.

Lemma shuffle_with_above (i : nat) (js : list nat) x (k : nat) :
  choices_in_range i js → (i < k)%nat → shuffle_with i js x !! k = x !! k.
Proof.
  revert js x. induction i as [|i IH]; intros js x Hjs Hk; [done|].
  destruct js as [|j js]; [done|]. destruct Hjs as [Hj Hjs].
  cbn [shuffle_with]. rewrite IH by (done || lia).
  apply swap_lookup_ne; lia.
Qed.

Lemma shuffle_with_top (i j : nat) (js : list nat) x :
  choices_in_range (S i) (j :: js) → (S i < length x)%nat →
  shuffle_with (S i) (j :: js) x !! S i = x !! j.
Proof.
  intros [Hj Hjs] Hi. cbn [shuffle_with].
  rewrite shuffle_with_above by (done || lia).
  apply swap_lookup; lia.
Qed.

Lemma shuffle_with_inj (i : nat) (js js' : list nat) x :
  NoDup x → (i ≤ length x - 1)%nat →
  choices_in_range i js → choices_in_range i js' →
  shuffle_with i js x = shuffle_with i js' x → js = js'.
Proof.
  revert js js' x. induction i as [|i IH]; intros js js' x Hnd Hi Hjs Hjs'.
  { destruct js, js'; done. }
  destruct js as [|j js], js' as [|j' js']; try done. intros Heq.
  assert (x !! j = x !! j') as Hjj.
  { rewrite <- (shuffle_with_top i j js), <- (shuffle_with_top i j' js')
      by (done || lia). by rewrite Heq. }
  destruct Hjs as [Hj Hjs], Hjs' as [Hj' Hjs'].
  destruct (lookup_lt_is_Some_2 x j) as [a Ha]; [lia|].
  assert (j = j') as <-.
  { apply (NoDup_lookup x j j' a); [done | done | congruence]. }
  f_equal. apply (IH js js' (swap x (S i) j)); try done.
  - by rewrite swap_Permutation.
  - rewrite length_swap. lia.
Qed.

Lemma shuffle_with_surj (i : nat) x y :
  NoDup x → (i ≤ length x - 1)%nat → y ≡ₚ x →
  (∀ k, (i < k)%nat → y !! k = x !! k) →
  ∃ js, choices_in_range i js ∧ shuffle_with i js x = y.
Proof.
  revert x. induction i as [|i IH]; intros x Hnd Hi Hperm Hagree.
  - exists []. split; [done|]. simpl.
    destruct x as [|a x], y as [|b y].
    + done.
    + by apply Permutation_nil_r in Hperm.
    + symmetry in Hperm. by apply Permutation_nil_r in Hperm.
    + assert (y = x) as ->.
      { apply list_eq. intros k. apply (Hagree (S k)). lia. }
      f_equal. assert (b ∈ a :: x) as Hb by (rewrite <- Hperm; by left).
      apply elem_of_cons in Hb as [->|Hb]; [done|].
      assert (NoDup (b :: x)) as Hnd' by (by rewrite Hperm).
      by apply NoDup_cons in Hnd' as [? _].
  - assert (NoDup y) as Hndy by (by rewrite Hperm).
    assert (length y = length x) as Hlen by (by rewrite Hperm).
    destruct (lookup_lt_is_Some_2 y (S i)) as [b Hb]; [lia|].
    assert (b ∈ x) as Hbx.
    { rewrite <- Hperm. by eapply list_elem_of_lookup_2. }
    apply list_elem_of_lookup in Hbx as [j Hj].
    assert (j ≤ S i)%nat as Hji.
    { destruct (decide (j ≤ S i)%nat) as [?|Hgt]; [done|].
      assert (y !! j = Some b) as Hyj by (rewrite Hagree by lia; done).
      pose proof (NoDup_lookup y j (S i) b Hndy Hyj Hb). lia. }
    destruct (IH (swap x (S i) j)) as (js & Hjs & Hsh).
    + by rewrite swap_Permutation.
    + rewrite length_swap. lia.
    + by rewrite swap_Permutation.
    + intros k Hk. destruct (decide (k = S i)) as [->|Hne].
      * rewrite swap_lookup by lia. congruence.
      * rewrite swap_lookup_ne by lia. apply Hagree. lia.
    + exists (j :: js). split; [done|]. done.
Qed.

(** The loop of [shuffle] is a one-to-one correspondence between the
    sequences of numbers it can draw and the orderings of the list. *)
Lemma shuffle_with_bijection x y :
  NoDup x → y ≡ₚ x →
  ∃ js, choices_in_range (length x - 1) js
        ∧ shuffle_with (length x - 1) js x = y
        ∧ ∀ js', choices_in_range (length x - 1) js' →
                 shuffle_with (length x - 1) js' x = y → js' = js.
Proof.
  intros Hnd Hperm.
  destruct (shuffle_with_surj (length x - 1) x y) as (js & Hjs & Hsh);
    [done | lia | done | |].
  { intros k Hk. rewrite !lookup_ge_None_2; [done | lia |].
    rewrite Hperm. lia. }
  exists js. split_and!; [done..|].
  intros js' Hjs' Hsh'.
  apply (shuffle_with_inj (length x - 1) js' js x); try done.
  congruence.
Qed.
End Exchange.

(** ** The cells of the initial grid *)

Lemma randint_row_get (low high : Z) (w : nat) (g : RandomSource) :
  (∀ j, (j < w)%nat →
     (randint_row low high w g).1 !! j
     = Some (low + Z.of_nat (draws g (cursor g + j)
                             mod Z.to_nat (high - low))))
  ∧ (randint_row low high w g).2 = advance w g.
Proof.
  revert g. induction w as [|w IH]; intros g; cbn [randint_row].
  { split; [intros j Hj; lia | by rewrite advance_0]. }
  unfold randint.
  pose proof (advance_randbelow (Z.to_nat (high - low)) w g) as Hadv.
  destruct (randbelow (Z.to_nat (high - low)) g) as [r g1] eqn:Hr.
  unfold randbelow in Hr. injection Hr as <- <-.
  match goal with |- context [randint_row low high w ?g1] =>
    destruct (IH g1) as [Hget Hrng];
    destruct (randint_row low high w g1) as [row g2]
  end.
  simpl in *. split; [|congruence].
  intros [|j] Hj; simpl.
  - by rewrite Nat.add_0_r.
  - rewrite Hget by lia. by rewrite Nat.add_succ_r.
Qed.

Lemma randint_grid_get (low high : Z) (h w : nat) (g : RandomSource) :
  (∀ i, (i < h * w)%nat →
     grid_get (randint_grid low high h w g).1 ((i / w)%nat, (i mod w)%nat)
     = Some (low + Z.of_nat (draws g (cursor g + i)
                             mod Z.to_nat (high - low))))
  ∧ (randint_grid low high h w g).2 = advance (h * w) g.
Proof.
  revert g. induction h as [|h IH]; intros g; cbn [randint_grid].
  { split; [intros i Hi; lia | by rewrite advance_0]. }
  destruct (randint_row_get low high w g) as [Hrow Hrng].
  destruct (randint_row low high w g) as [row g1]. simpl in Hrow, Hrng.
  destruct (IH g1) as [Hget Hrng'].
  destruct (randint_grid low high h w g1) as [rows g2].
  simpl in Hget, Hrng'. simpl fst. simpl snd. split.
  - intros i Hi. assert (0 < w)%nat as Hw by (destruct w; lia).
    destruct (decide (i < w)%nat) as [Hlt|Hge].
    + rewrite Nat.div_small, Nat.mod_small by done.
      unfold grid_get. simpl. by apply Hrow.
    + replace i with (i - w + 1 * w)%nat at 1 2 by lia.
      rewrite Nat.div_add, Nat.Div0.mod_add by lia.
      replace ((i - w) / w + 1)%nat with (S ((i - w) / w)) by lia.
      change (grid_get (row :: rows) (S ((i - w) / w), ((i - w) mod w)%nat))
        with (grid_get rows (((i - w) / w)%nat, ((i - w) mod w)%nat)).
      rewrite Hget by lia. subst g1. simpl.
      do 5 f_equal. lia.
  - subst g1 g2. unfold advance. simpl. f_equal. lia.
Qed.

Lemma flat_assign_get (w : nat) (indices : list nat) (grid0 grid1 : Grid)
    (i : nat) :
  (0 < w)%nat → flat_assign w indices EMPTY grid0 = Some grid1 →
  grid_get grid1 ((i / w)%nat, (i mod w)%nat)
  = if decide (i ∈ indices) then Some EMPTY
    else grid_get grid0 ((i / w)%nat, (i mod w)%nat).
Proof.
  intros Hw. revert grid0. induction indices as [|j indices IH];
    intros grid0 Hfa.
  { injection Hfa as ->. by rewrite decide_False by apply not_elem_of_nil. }
  rewrite flat_assign_cons in Hfa.
  destruct (grid_set grid0 _ EMPTY) as [grid'|] eqn:Hset; [|done].
  rewrite (IH grid' Hfa).
  destruct (decide (i ∈ indices)) as [Hin|Hout].
  { by rewrite decide_True by (by right). }
  destruct (decide (i = j)) as [->|Hne].
  - rewrite decide_True by (by left). by eapply grid_get_set_eq.
  - rewrite decide_False by (by intros [?|?]%elem_of_cons).
    apply (grid_get_set_ne _ _ _ _ _ Hset).
    intros Heq%(flat_coord_inj w); [|done]. by subst.
Qed.

Lemma randint_accepts (a : ArgParser) :
  0 ≤ height a → 0 ≤ width a → 1 ≤ agent_types a →
  agent_types a + 2 ≤ 2 ^ 63 → randint_refuses a = false.
Proof.
  intros Hh Hw Ht Hmax. unfold randint_refuses, INT64_MAX.
  rewrite (proj2 (Z.ltb_ge (height a) 0)) by lia.
  rewrite (proj2 (Z.ltb_ge (width a) 0)) by lia.
  rewrite (proj2 (Z.ltb_ge (agent_types a + 1) 2)) by lia.
  rewrite (proj2 (Z.ltb_ge (2 ^ 63 - 1) (agent_types a + 1))) by lia.
  simpl. apply andb_false_r.
Qed.


(** * The claims *)

(** C1. A relocation pass only moves agents: whatever the grid, the
    threshold and the random draws, the grid [_update] leaves behind holds
    the same multiset of non-empty cell values as the grid it started
    from, and as many empty cells.  Hence along a run the grid of every
    frame and the final grid hold the population of the initial grid. *)
Theorem update_conserves_population :
  (∀ (grid0 : Grid) (same_neighbour : float) (g : RandomSource),
     same_population grid0 (p_grid (_update grid0 same_neighbour g).1))
  ∧ (∀ (fuel : nat) (m : SocialSegregation) (g : RandomSource),
       same_population (grid m) (grid (r_model (run fuel m g).1))
       ∧ Forall (λ fr, same_population (grid m) fr.2)
                (r_frames (run fuel m g).1)).
Proof.
  split.
  - intros grid0 same_neighbour g.
    apply perm_same_population, _update_perm.
  - intros fuel m g. rewrite run_fst.
    destruct (run_loop_spec fuel (run_iterator (args m))
                {| r_model := m; r_rng := g; r_frames := [];
                   r_updates := 0 |})
      as (new & Hfr & _ & _ & _ & Hgrid & Hall & _).
    simpl in *. split.
    + by apply perm_same_population.
    + rewrite Hfr. eapply Forall_impl; [apply Hall|].
      intros fr. apply perm_same_population.
Qed.

(** C10. Every move of a pass takes an agent to a cell that is empty in
    the grid of that moment: the destination differs from the source,
    which still holds the agent; after the move the agent's value is at the
    destination, the source is empty and no other cell has changed, so no
    agent is overwritten.  The recorded moves are the execution of the
    pass: each starts in the grid the previous one produced, and a pass
    that completes has moved every unhappy cell, in the shuffled order. *)
Theorem destination_is_empty (grid0 : Grid) (same_neighbour : float)
    (g : RandomSource) :
  replays grid0 (p_moves (_update grid0 same_neighbour g).1)
          (p_grid (_update grid0 same_neighbour g).1)
  ∧ Forall (λ mv,
      grid_get (mv_grid mv) (mv_dst mv) = Some EMPTY
      ∧ mv_dst mv ≠ mv_src mv
      ∧ ∃ v grid',
          v ≠ EMPTY
          ∧ grid_get (mv_grid mv) (mv_src mv) = Some v
          ∧ apply_move mv = Some grid'
          ∧ grid_get grid' (mv_dst mv) = Some v
          ∧ grid_get grid' (mv_src mv) = Some EMPTY
          ∧ ∀ c, c ≠ mv_src mv → c ≠ mv_dst mv →
                 grid_get grid' c = grid_get (mv_grid mv) c)
      (p_moves (_update grid0 same_neighbour g).1)
  ∧ (∀ n, (_update grid0 same_neighbour g).2 = Ok n →
          mv_src <$> p_moves (_update grid0 same_neighbour g).1
          = unhappy_set grid0 same_neighbour g).
Proof.
  destruct (_update_trace grid0 same_neighbour g) as (Hrep & Hok & _).
  split_and!; [done | |].
  - eapply Forall_impl; [apply Hok|]. intros mv Hmv.
    destruct (apply_move_spec mv Hmv) as [Hne Hex].
    split_and!; [apply Hmv | done | done].
  - pose proof (_update_spec grid0 same_neighbour g) as Hspec.
    destruct (_update grid0 same_neighbour g) as [p [n|e]]; simpl; [|done].
    intros _ _. destruct Hspec as (u & -> & _ & _ & _ & _ & Inv).
    apply Inv.
Qed.

(** C4. Along a pass the destination of each unhappy agent is drawn from
    the working list of empty spots: from the current list while it is not
    empty, and from a fresh scan of the current grid once it is exhausted;
    the destination then leaves the list ([draws_from], over the execution
    [replays]).  No cell is the destination of two moves of a pass.  A
    rescan can hand out a cell vacated earlier in the same pass: in the
    sample row the second agent lands on the source of the first. *)
Theorem destinations_drawn_from_working_list :
  (∀ (grid0 : Grid) (same_neighbour : float) (g : RandomSource),
     replays grid0 (p_moves (_update grid0 same_neighbour g).1)
             (p_grid (_update grid0 same_neighbour g).1)
     ∧ (∃ spots',
          draws_from (_get_empty_cells grid0)
                     (p_moves (_update grid0 same_neighbour g).1) spots')
     ∧ NoDup (mv_dst <$> p_moves (_update grid0 same_neighbour g).1))
  ∧ (∃ (grid0 : Grid) (same_neighbour : float) (g : RandomSource)
       (i j : nat) (mi mj : Move),
       p_moves (_update grid0 same_neighbour g).1 !! i = Some mi
       ∧ p_moves (_update grid0 same_neighbour g).1 !! j = Some mj
       ∧ (i < j)%nat ∧ mv_rescan mj = true ∧ mv_dst mj = mv_src mi).
Proof.
  split.
  - intros grid0 same_neighbour g.
    destruct (_update_trace grid0 same_neighbour g)
      as (Hrep & _ & Hnd & Hdraws).
    done.
  - exists Sample.row3, Sample.f05, (Sample.source []), 0%nat, 1%nat,
      {| mv_grid := [[2; 3; -1]]; mv_spots := [(0, 2)%nat];
         mv_rescan := false; mv_src := (0, 1)%nat; mv_dst := (0, 2)%nat |},
      {| mv_grid := [[2; -1; 3]]; mv_spots := [(0, 1)%nat];
         mv_rescan := true; mv_src := (0, 0)%nat; mv_dst := (0, 1)%nat |}.
    split_and!; [vm_compute; reflexivity.. | lia | done | done].
Qed.

(** C5. A pass on a grid with an empty cell completes, and afterwards a
    coordinate of the unhappy set holds [-1] unless it is the destination
    of a move; such a move comes later in the pass than the move that
    vacated the coordinate, and the coordinate then holds the value of the
    agent that move brought, which is the value its source held in the
    initial grid. *)
Theorem unhappy_cells_vacated (grid0 : Grid) (same_neighbour : float)
    (g : RandomSource) (c : coord) :
  _get_empty_cells grid0 ≠ [] →
  c ∈ unhappy_set grid0 same_neighbour g →
  (∃ n, (_update grid0 same_neighbour g).2 = Ok n)
  ∧ (c ∉ (mv_dst <$> p_moves (_update grid0 same_neighbour g).1) →
     grid_get (p_grid (_update grid0 same_neighbour g).1) c = Some EMPTY)
  ∧ (∀ j mj,
       p_moves (_update grid0 same_neighbour g).1 !! j = Some mj →
       mv_dst mj = c →
       (∃ i mi, p_moves (_update grid0 same_neighbour g).1 !! i = Some mi
                ∧ mv_src mi = c ∧ (i < j)%nat)
       ∧ ∃ v, v ≠ EMPTY
              ∧ grid_get grid0 (mv_src mj) = Some v
              ∧ grid_get (p_grid (_update grid0 same_neighbour g).1) c
                = Some v).
Proof.
  intros Hsome Hc.
  pose proof (_update_spec grid0 same_neighbour g) as Hspec.
  destruct (_update grid0 same_neighbour g) as [p [n|e]]; simpl.
  2:{ destruct Hspec as (_ & _ & [[_ Hscan] | (_ & _ & Hno)]); [|done].
      apply elem_of_unhappy_set in Hc. rewrite Hscan in Hc.
      by apply elem_of_nil in Hc. }
  destruct Hspec as (u & -> & _ & _ & _ & _ & Inv).
  split_and!; [by eexists | |].
  - by apply (inv_done_empty _ _ _ _ Inv).
  - intros j mj Hj Hdst. split.
    + pose proof (inv_sources _ _ _ _ Inv) as Hsrc.
      rewrite <- Hsrc in Hc.
      apply list_elem_of_lookup in Hc as [i Hi].
      apply list_lookup_fmap_Some in Hi as (mi & Hi & Hmi).
      exists i, mi. split_and!; [done..|].
      apply (inv_order _ _ _ _ Inv i j mi mj); congruence.
    + destruct (inv_dst_holds _ _ _ _ Inv mj) as (_ & v & Hv & Hget & H0).
      { by eapply list_elem_of_lookup_2. }
      exists v. rewrite <- Hdst. done.
Qed.

Lemma unhappy_cells_vacated_row3 :
  (∃ n, (_update Sample.row3 Sample.f05 (Sample.source [])).2 = Ok n)
  ∧ ((0, 0)%nat
       ∉ (mv_dst <$>
            p_moves (_update Sample.row3 Sample.f05 (Sample.source [])).1) →
     grid_get (p_grid (_update Sample.row3 Sample.f05 (Sample.source [])).1)
              (0, 0)%nat = Some EMPTY).
Proof.
  assert (_get_empty_cells Sample.row3 ≠ []) as H1
    by (vm_compute; discriminate).
  assert ((0, 0)%nat ∈ unhappy_set Sample.row3 Sample.f05 (Sample.source []))
    as H2 by (vm_compute; right; left).
  pose proof (unhappy_cells_vacated Sample.row3 Sample.f05
                (Sample.source []) (0, 0)%nat H1 H2) as (Hok & Hempty & _).
  split; assumption.
Defined.

(** C7, as the code has it.  A configuration without empty cells is not
    turned down when the program is set up: [process_args] lets
    [percent_empty = 0] through (it can only raise for another argument or
    for the directories).  The lack of an empty cell shows during the
    first pass that has an unhappy cell: the second [random.choice] raises
    [IndexError] before any agent is moved, the grid is left as it was,
    and the run ends there, after one call of [_update]. *)
Theorem no_empty_cell_fails_in_pass (fs : FileSystem) (a : ArgParser)
    (grid0 : Grid) (g : RandomSource) :
  percent_empty a = PyFloat.of_int 0 →
  _get_empty_cells grid0 = [] →
  scan_unhappy grid0 (same_neighbour a) ≠ [] →
  (∀ e, process_args fs a = Raise e →
        PyFloat.ltb (same_neighbour a) (PyFloat.of_int 0)
        || PyFloat.geb (same_neighbour a) (PyFloat.of_int 1) = true
        ∨ dir_exists fs (images_path a) = false
        ∨ cleanup_fails fs (images_path a) = true
        ∨ dir_exists fs (default (images_path a) (gif_path a)) = false)
  ∧ (_update grid0 (same_neighbour a) g).2 = Raise IndexError
  ∧ p_grid (_update grid0 (same_neighbour a) g).1 = grid0
  ∧ p_moves (_update grid0 (same_neighbour a) g).1 = []
  ∧ (iterations a = -1 ∨ 1 ≤ iterations a →
     ∀ fuel,
       (run (S fuel) {| args := a; grid := grid0; iteration := 0 |} g).2
       = Crashed IndexError
       ∧ r_updates
           (run (S fuel) {| args := a; grid := grid0; iteration := 0 |} g).1
         = 1%nat
       ∧ grid (r_model
           (run (S fuel) {| args := a; grid := grid0; iteration := 0 |} g).1)
         = grid0).
Proof.
  intros Hpe Hno Hun.
  assert ((_update grid0 (same_neighbour a) g).2 = Raise IndexError
          ∧ p_grid (_update grid0 (same_neighbour a) g).1 = grid0
          ∧ p_moves (_update grid0 (same_neighbour a) g).1 = [])
    as (Hres & Hgrid & Hmoves).
  { pose proof (_update_spec grid0 (same_neighbour a) g) as Hspec.
    destruct (_update grid0 (same_neighbour a) g) as [p [n|e]]; simpl.
    - by destruct Hspec as (? & _ & _ & _ & _ & ? & _).
    - destruct Hspec as (? & ? & [[_ ?] | (-> & _)]); done. }
  split_and!; try done.
  - intros e. unfold process_args. rewrite Hpe.
    change (PyFloat.ltb (PyFloat.of_int 0) (PyFloat.of_int 0)
            || PyFloat.geb (PyFloat.of_int 0) (PyFloat.of_int 1))
      with false. cbv iota.
    destruct (PyFloat.ltb (same_neighbour a) _ || _); [by left|].
    destruct (dir_exists fs (images_path a)); simpl; [|by right; left].
    destruct (cleanup_fails fs (images_path a)); [by right; right; left|].
    destruct (gif_path a) as [gif|]; simpl;
      (destruct (dir_exists fs _); simpl; [done | by right; right; right]).
  - intros Hit fuel. unfold run, run_iterator. simpl.
    assert (next (if iterations a =? -1 then count 1
                  else range 1 (iterations a + 1))
            = Some (1, if iterations a =? -1 then count 2
                       else range 2 (iterations a + 1))) as ->.
    { destruct (iterations a =? -1) eqn:Heq; [done|]. simpl.
      apply Z.eqb_neq in Heq.
      destruct (1 <? iterations a + 1) eqn:Hlt; [done|].
      apply Z.ltb_ge in Hlt. lia. }
    destruct (_update grid0 (same_neighbour a) g) as [p res].
    simpl in *. subst. done.
Qed.

Lemma no_empty_cell_fails_in_pass_full :
  (_update Sample.full Sample.f05 (Sample.source [])).2 = Raise IndexError
  ∧ p_grid (_update Sample.full Sample.f05 (Sample.source [])).1
    = Sample.full.
Proof.
  pose proof (no_empty_cell_fails_in_pass Sample.fs
                (Sample.config 2 1 2 (-1) Sample.f0 Sample.f05)
                Sample.full (Sample.source [])) as H.
  simpl in H. destruct H as (_ & H1 & H2 & _).
  - reflexivity.
  - vm_compute. reflexivity.
  - vm_compute. discriminate.
  - split; assumption.
Defined.

(** C7, as the claim states it, fails: with [percent_empty = 0] on a 1 x 2
    grid the arguments pass the checks, the grid is built without an empty
    cell, and the program ends with an uncaught [IndexError] inside the
    first call of [_update]. *)
Lemma zero_percent_empty_not_rejected :
  let a := Sample.config 2 1 2 (-1) Sample.f0 Sample.f05 in
  let g := Sample.generators [] [0; 1]%nat in
  (∃ a', process_args Sample.fs a = Ok a'
         ∧ ∃ m, (__init__ a' g).1 = Ok m ∧ grid m = Sample.full)
  ∧ (program Sample.fs 3 a g).2 = Crashed IndexError
  ∧ r_updates <$> (program Sample.fs 3 a g).1 = Some 1%nat.
Proof.
  split_and!.
  - eexists. split; [reflexivity|]. eexists. split; vm_compute; reflexivity.
  - vm_compute. reflexivity.
  - vm_compute. reflexivity.
Qed.

(** C2. An occupied cell with at least one occupied neighbour is in the
    unhappy set exactly when the number of occupied neighbours of its own
    type is strictly below the float product
    [len(occupied) * same_neighbour].  Equality counts as happy: the cell
    is not unhappy when the product equals the count, nor when the
    threshold is the quotient [same_count / len(occupied)] itself. *)
Theorem unhappy_iff_below_threshold (grid0 : Grid) (same_neighbour : float)
    (g : RandomSource) (c : coord) (current : cell) :
  grid_get grid0 c = Some current → current ≠ EMPTY →
  not_empty_neighbours grid0 c.1 c.2 ≠ [] →
  let occupied := not_empty_neighbours grid0 c.1 c.2 in
  let same :=
    PyFloat.of_int
      (Z.of_nat (length (filter (λ i, i = current) occupied))) in
  let len := PyFloat.of_int (Z.of_nat (length occupied)) in
  (c ∈ unhappy_set grid0 same_neighbour g
   ↔ PyFloat.ltb same (PyFloat.mul len same_neighbour) = true)
  ∧ (PyFloat.eqb same (PyFloat.mul len same_neighbour) = true →
     c ∉ unhappy_set grid0 same_neighbour g)
  ∧ (same_neighbour = PyFloat.div same len →
     c ∉ unhappy_set grid0 same_neighbour g).
Proof.
  intros Hc Hcur Hocc occupied same len.
  assert (c ∈ unhappy_set grid0 same_neighbour g
          ↔ PyFloat.ltb same (PyFloat.mul len same_neighbour) = true)
    as Hiff.
  { rewrite elem_of_unhappy_set, elem_of_scan_unhappy.
    unfold is_unhappy, unhappy_test. subst same len occupied.
    rewrite <- same_count_occupied. split.
    - intros (v & Hv & Hun). assert (v = current) as -> by congruence.
      by case_decide.
    - intros Hlt. exists current. split; [done|]. by case_decide. }
  split_and!; [done | |].
  - intros Heq%float_eqb_not_ltb. rewrite Hiff. congruence.
  - intros ->. rewrite Hiff.
    subst same len. rewrite fraction_not_below; [done | |].
    + apply length_filter.
    + split; [|apply length_not_empty_neighbours].
      subst occupied. destruct (not_empty_neighbours _ _ _); simpl; [done|].
      lia.
Qed.

Lemma unhappy_iff_below_threshold_sample :
  (1, 0)%nat ∉ unhappy_set [[2; 3; -1]; [3; -1; 2]] Sample.f05
                 (Sample.source []).
Proof.
  refine (proj1 (proj2 (unhappy_iff_below_threshold
            [[2; 3; -1]; [3; -1; 2]] Sample.f05 (Sample.source [])
            (1, 0)%nat 3 _ _ _)) _).
  - reflexivity.
  - discriminate.
  - vm_compute. discriminate.
  - vm_compute. reflexivity.
Defined.

(** C3. A cell without any occupied neighbour is never unhappy, whatever
    the threshold (in particular for every threshold in [0, 1)): the test
    compares [0] with the product of [0] by the threshold, and fails. *)
Theorem isolated_cell_is_happy (grid0 : Grid) (same_neighbour : float)
    (g : RandomSource) (c : coord) :
  not_empty_neighbours grid0 c.1 c.2 = [] →
  (∀ current, is_unhappy grid0 same_neighbour c.1 c.2 current = false)
  ∧ (c ∉ scan_unhappy grid0 same_neighbour)
  ∧ (c ∉ unhappy_set grid0 same_neighbour g).
Proof.
  intros Hnil.
  assert (∀ current, is_unhappy grid0 same_neighbour c.1 c.2 current = false)
    as Hhappy.
  { intros current. unfold is_unhappy. case_decide; [done|].
    rewrite Hnil. apply unhappy_test_nil. }
  assert (c ∉ scan_unhappy grid0 same_neighbour) as Hscan.
  { intros (v & _ & Hv)%elem_of_scan_unhappy. by rewrite Hhappy in Hv. }
  split_and!; [done.. |]. by rewrite elem_of_unhappy_set.
Qed.

Lemma isolated_cell_is_happy_sample :
  (0, 0)%nat ∉ unhappy_set [[2; -1; 3]; [-1; -1; 3]] Sample.f075
                 (Sample.source []).
Proof.
  refine (proj2 (proj2 (isolated_cell_is_happy
            [[2; -1; 3]; [-1; -1; 3]] Sample.f075 (Sample.source [])
            (0, 0)%nat _))).
  vm_compute. reflexivity.
Defined.

(** C8, as the code has it.  With a budget [N >= 0] the loop calls
    [_update] at most [N] times and is over after at most [N] iterations;
    when the run ends by running out of iterations it has made exactly
    [N] calls and the counter is [N], whether or not unhappy cells remain
    (the sample row still has two after a budget of one).  Whatever the
    budget, the loop stops at convergence: a frame that shows a grid
    without unhappy cells is the last one, and the call of [_update] that
    follows it exits with status 0 and leaves that grid.  With the budget
    [-1] the loop never runs out and every iteration calls [_update]; it
    goes on as long as each grid has an unhappy cell and the grid has an
    empty cell, and it exits with status 0 only on a grid without unhappy
    cells.  It does not end upon convergence only: on a grid without any
    empty cell the pass raises [IndexError] while unhappy cells remain. *)
Theorem budget_bounds_the_loop :
  (∀ (m : SocialSegregation) (g : RandomSource) (fuel : nat),
     0 ≤ iterations (args m) →
     Z.of_nat (r_updates (run fuel m g).1) ≤ iterations (args m)
     ∧ ((Z.to_nat (iterations (args m)) < fuel)%nat →
        (run fuel m g).2 ≠ Running)
     ∧ ((run fuel m g).2 = Finished →
        Z.of_nat (r_updates (run fuel m g).1) = iterations (args m)
        ∧ (0 < iterations (args m) →
           iteration (r_model (run fuel m g).1) = iterations (args m))))
  ∧ (∃ (m : SocialSegregation) (g : RandomSource) (fuel : nat),
       iterations (args m) = 1
       ∧ (run fuel m g).2 = Finished
       ∧ scan_unhappy (grid (r_model (run fuel m g).1))
           (same_neighbour (args m)) ≠ [])
  ∧ (∀ (m : SocialSegregation) (g : RandomSource) (fuel k : nat)
       (fr : Z * Grid),
       r_frames (run fuel m g).1 !! k = Some fr →
       scan_unhappy fr.2 (same_neighbour (args m)) = [] →
       S k = length (r_frames (run fuel m g).1)
       ∧ (run fuel m g).2 = Exited 0
       ∧ grid (r_model (run fuel m g).1) = fr.2)
  ∧ (∀ (m : SocialSegregation) (g : RandomSource) (fuel : nat),
       iterations (args m) = -1 →
       (run fuel m g).2 ≠ Finished
       ∧ r_updates (run fuel m g).1 = length (r_frames (run fuel m g).1)
       ∧ ((run fuel m g).2 = Running →
          r_updates (run fuel m g).1 = fuel
          ∧ Forall (λ fr, scan_unhappy fr.2 (same_neighbour (args m)) ≠ [])
              (r_frames (run fuel m g).1))
       ∧ (∀ code, (run fuel m g).2 = Exited code →
            code = 0
            ∧ scan_unhappy (grid (r_model (run fuel m g).1))
                (same_neighbour (args m)) = [])
       ∧ (∀ e, (run fuel m g).2 = Crashed e →
            e = IndexError ∧ _get_empty_cells (grid m) = []
            ∧ scan_unhappy (grid (r_model (run fuel m g).1))
                (same_neighbour (args m)) ≠ [])
       ∧ (_get_empty_cells (grid m) ≠ [] →
          (run fuel m g).2 = Running ∨ (run fuel m g).2 = Exited 0)).
Proof.
  split_and!.
  - intros m g fuel HN. rewrite run_outcome, run_fst. unfold run_iterator.
    destruct (iterations (args m) =? -1) eqn:Heq;
      [apply Z.eqb_eq in Heq; lia|].
    match goal with |- context [run_loop fuel ?it ?r0] =>
      destruct (run_loop_spec fuel it r0)
        as (new & Hfr & Hup & Hlen & _ & _ & _ & Hiter & Hbound & Ho)
    end.
    specialize (Hbound _ _ eq_refl). simpl in *.
    rewrite Hup. split_and!.
    + lia.
    + intros Hfuel Hrun.
      destruct (run_loop fuel _ _).2 as [|code|e|]; simpl in *;
        [|discriminate|discriminate|lia].
      rewrite Hfr in Hrun.
      destruct (no_gif (args m)); [discriminate|].
      destruct new; discriminate.
    + intros Hfin.
      destruct (run_loop fuel _ _).2 as [|code|e|]; simpl in *; try done.
      destruct Ho as (start & stop & [= <- <-] & Hn). split; [lia|].
      intros Hpos. rewrite Hiter. destruct new; simpl in *; lia.
  - exists (Sample.model (Sample.config 3 1 2 1 Sample.f03 Sample.f05)
              Sample.row3), (Sample.source []), 2%nat.
    split_and!; [done | vm_compute; reflexivity | vm_compute; discriminate].
  - intros m g fuel k fr. rewrite run_outcome, run_fst.
    match goal with |- context [run_loop fuel ?it ?r0] =>
      destruct (run_loop_convergence fuel it r0) as (new & Hfr & Hstop & _)
    end.
    simpl in *. rewrite Hfr. intros Hk Hnone.
    destruct (Hstop k fr Hk Hnone) as (? & -> & ?). done.
  - intros m g fuel HN. rewrite run_outcome, run_fst. unfold run_iterator.
    rewrite HN. simpl.
    match goal with |- context [run_loop fuel ?it ?r0] =>
      destruct (run_loop_spec fuel it r0)
        as (new & Hfr & Hup & _ & _ & _ & _ & _ & _ & Ho);
      destruct (run_loop_convergence fuel it r0)
        as (new' & Hfr' & Hstop & _)
    end.
    simpl in *. rewrite Hfr' in Hfr. subst new'. rewrite Hup, Hfr'.
    destruct (run_loop fuel _ _).2 as [|code|e|]; simpl in *.
    + by destruct Ho as (? & ? & [=] & _).
    + destruct Ho as (-> & _ & Hscan). split_and!; try done.
      * by intros ? [= <-].
      * intros _. by right.
    + destruct Ho as (-> & _ & Hno & Hscan). split_and!; try done.
      by intros ? [= <-].
    + split_and!; try done; [|intros _; by left].
      intros _. split; [done|]. apply Forall_lookup_2.
      intros k fr Hk Hnone. by destruct (Hstop k fr Hk Hnone) as (_ & ? & _).
Qed.

(** C8, as the claim states it, fails for the budget [-1]: on a full
    1 x 2 grid with two agents of different types the loop ends in its
    first iteration although it has not converged, with an [IndexError]
    and both cells still unhappy. *)
Lemma unbounded_run_ends_unconverged :
  let a := Sample.config 2 1 2 (-1) Sample.f0 Sample.f05 in
  let g := Sample.generators [] [0; 1]%nat in
  iterations a = -1
  ∧ (main 3 a g).2 = Crashed IndexError
  ∧ ∃ r, (main 3 a g).1 = Some r
         ∧ r_updates r = 1%nat
         ∧ grid (r_model r) = Sample.full
         ∧ scan_unhappy (grid (r_model r)) (same_neighbour a)
           = [(0, 0); (0, 1)]%nat.
Proof.
  split_and!; [reflexivity | vm_compute; reflexivity |].
  eexists. split; [vm_compute; reflexivity|].
  split_and!; vm_compute; reflexivity.
Qed.




(** C6, as the code has it.  For a configuration with positive width and
    height, at least one agent type, at most [2 ** 63 - 2] of them (the
    bound of [randint]) and a [percent_empty] that is not negative, the
    grid built by [__init__] has the shape [(height, width)] and contains
    exactly [int(percent_empty * size)] empty cells, the product being
    truncated toward zero (and the slice capping it at the size of the
    grid).  The empty cells are chosen at random without replacement:
    they are the first [num_empty] entries of the ordering of all flat
    indices that the exchange loop of [shuffle] builds from its draws,
    which are in range, and every ordering of the indices comes from
    exactly one sequence of draws in range.  Every other cell holds an
    agent type chosen at random among the [agent_types] possible ones:
    it is 2 plus that cell's own draw below [agent_types], and every
    type [2 .. agent_types + 1] comes from exactly one value of the
    draw.  Draws that are uniform and independent thus make every
    ordering, and every type in every cell, equally likely. *)
Theorem initial_grid_population (a : ArgParser) (g : Generators) (n : Z) :
  0 < width a → 0 < height a → 1 ≤ agent_types a →
  agent_types a + 2 ≤ 2 ^ 63 →
  PyFloat.ltb (percent_empty a) (PyFloat.of_int 0) = false →
  num_empty a (Z.to_nat (height a) * Z.to_nat (width a)) = Some n →
  let h := Z.to_nat (height a) in
  let w := Z.to_nat (width a) in
  let js := exchange_draws (h * w - 1) (advance (h * w) (np_random g)) in
  let empties :=
    take (Z.to_nat n) (shuffle_with (h * w - 1) js (seq 0 (h * w))) in
  (∃ m, (__init__ a g).1 = Ok m
        ∧ rect h w (grid m)
        ∧ Z.of_nat (count_empty (grid m)) = Z.min n (height a * width a)
        ∧ Forall (λ v, v = EMPTY ∨ is_agent a v) (concat (grid m))
        ∧ ∀ i, (i < h * w)%nat →
            grid_get (grid m) ((i / w)%nat, (i mod w)%nat)
            = Some (if decide (i ∈ empties) then EMPTY
                    else 2 + Z.of_nat
                               (draws (np_random g)
                                  (cursor (np_random g) + i)
                                mod Z.to_nat (agent_types a))))
  ∧ choices_in_range (h * w - 1) js
  ∧ NoDup empties
  ∧ (∀ order, order ≡ₚ seq 0 (h * w) →
       ∃ js0, choices_in_range (h * w - 1) js0
              ∧ shuffle_with (h * w - 1) js0 (seq 0 (h * w)) = order
              ∧ ∀ js1, choices_in_range (h * w - 1) js1 →
                       shuffle_with (h * w - 1) js1 (seq 0 (h * w)) = order →
                       js1 = js0)
  ∧ (∀ v, is_agent a v ↔
          ∃ r, (r < Z.to_nat (agent_types a))%nat ∧ v = 2 + Z.of_nat r)
  ∧ (∀ r r' : nat, 2 + Z.of_nat r = 2 + Z.of_nat r' → r = r').
Proof.
  intros Hw Hh Ht Hmax Hp Hn h w js empties.
  pose proof (num_empty_nonneg _ _ _ Hp Hn) as Hn0.
  assert (shuffle_with (h * w - 1) js (seq 0 (h * w)) ≡ₚ seq 0 (h * w))
    as Hperm by apply shuffle_with_Permutation.
  assert (NoDup empties) as Hnd.
  { eapply sublist_NoDup; [|apply sublist_take].
    rewrite Hperm. apply NoDup_seq. }
  split_and!.
  - unfold __init__. rewrite randint_accepts by lia.
    destruct (randint_grid_spec 2 (agent_types a + 2) h w (np_random g))
      as [Hrect Hvals]; [lia|].
    destruct (randint_grid_get 2 (agent_types a + 2) h w (np_random g))
      as [Hcell Hrng].
    fold h w.
    destruct (randint_grid 2 (agent_types a + 2) h w (np_random g))
      as [grid0 np1].
    simpl in Hrect, Hvals, Hcell, Hrng.
    replace (agent_types a + 2 - 2) with (agent_types a) in Hcell by lia.
    rewrite (rect_size _ _ _ Hrect). fold h w in Hn. rewrite Hn.
    unfold shuffle. rewrite shuffle_from_with, length_seq, Hrng.
    fold js. unfold slice_to. assert ((0 <=? n) = true) as -> by lia.
    fold empties.
    destruct (flat_assign_spec h w empties grid0)
      as (grid1 & Hfa & Hrect1 & Hcount & Hin); try done.
    { intros i (j & Hj & _)%elem_of_take.
      apply list_elem_of_lookup_2 in Hj. rewrite Hperm in Hj.
      apply elem_of_seq in Hj. lia. }
    { intros i _ Hget.
      assert (EMPTY ∈ concat grid0) as Hempty
        by (apply elem_of_concat_grid; eauto).
      apply (proj1 (Forall_forall _ _) Hvals) in Hempty. unfold EMPTY in *.
      lia. }
    rewrite Hfa. eexists. split; [done|]. simpl. split_and!; [done | | |].
    + rewrite Hcount, count_empty_agents.
      * unfold empties. rewrite length_take, Hperm, length_seq.
        unfold h, w. lia.
      * eapply Forall_impl; [apply Hvals|]. simpl. lia.
    + apply Forall_forall. intros v Hv.
      destruct (Hin v Hv) as [?|Hv0]; [by left|]. right.
      apply (proj1 (Forall_forall _ _) Hvals) in Hv0. done.
    + intros i Hi. rewrite (flat_assign_get w empties grid0 grid1 i);
        [|unfold w; lia|done].
      destruct (decide (i ∈ empties)); [done|]. by apply Hcell.
  - apply exchange_draws_in_range.
  - done.
  - intros order Horder.
    destruct (shuffle_with_bijection (seq 0 (h * w)) order)
      as (js0 & Hjs0 & Hsh & Huniq); [apply NoDup_seq | done |].
    rewrite length_seq in *. by exists js0.
  - intros v. unfold is_agent. split.
    + intros Hv. exists (Z.to_nat (v - 2)). lia.
    + intros (r & Hr & ->). lia.
  - intros r r'. lia.
Qed.

Lemma initial_grid_population_sample :
  ∃ m, (__init__ (Sample.config 3 3 2 (-1) Sample.f03 Sample.f04)
          (Sample.generators [] [0; 1; 1; 0; 1; 0; 3; 1]%nat)).1 = Ok m
       ∧ rect 3 3 (grid m)
       ∧ Z.of_nat (count_empty (grid m)) = 2
       ∧ Forall (λ v, v = EMPTY
                      ∨ is_agent (Sample.config 3 3 2 (-1) Sample.f03
                                    Sample.f04) v)
           (concat (grid m)).
Proof.
  destruct (initial_grid_population
              (Sample.config 3 3 2 (-1) Sample.f03 Sample.f04)
              (Sample.generators [] [0; 1; 1; 0; 1; 0; 3; 1]%nat) 2)
    as [(m & Hm & Hrect & Hcount & Hall & _) _].
  - reflexivity.
  - reflexivity.
  - vm_compute. discriminate.
  - vm_compute. discriminate.
  - vm_compute. reflexivity.
  - vm_compute. reflexivity.
  - exists m. split_and!; assumption.
Defined.

(** C6, as the claim states it, fails twice.  On a 3 x 3 grid with
    [percent_empty = 0.3] the product is [2.6999999999999997]; [round]
    gives 3 but the code truncates, and two cells are empty.  And with
    [agent_types = 2 ** 63 - 1], which the claim counts as valid, no grid
    is built: [randint] refuses the bound with a [ValueError]. *)
Lemma num_empty_is_truncated :
  let a := Sample.config 3 3 2 (-1) Sample.f03 Sample.f04 in
  let g := Sample.generators [] [0; 1; 1; 0; 1; 0; 3; 1]%nat in
  rounded_num_empty a = Some 3
  ∧ (∃ m, (__init__ a g).1 = Ok m
          ∧ grid m = [[2; -1; -1]; [2; 3; 2]; [3; 3; 2]]
          ∧ count_empty (grid m) = 2%nat
          ∧ Some (Z.of_nat (count_empty (grid m))) ≠ rounded_num_empty a)
  ∧ (__init__ (Sample.config 3 3 (2 ^ 63 - 1) (-1) Sample.f03 Sample.f04)
       g).1 = Raise ValueError.
Proof.
  split_and!; [vm_compute; reflexivity | | vm_compute; reflexivity].
  eexists. split; [vm_compute; reflexivity|].
  split_and!; [vm_compute; reflexivity.. | vm_compute; discriminate].
Qed.

(** * Further properties of the code *)

(** ** The scans *)

Lemma length_scan_row (k : nat → coord) (row : list cell) :
  length (concat (imap (λ x_index x,
            if decide (x = EMPTY) then [k x_index] else []) row))
  = length (filter (λ v, v = EMPTY) row).
Proof.
  revert k. induction row as [|v row IH]; intros k; [done|].
  simpl. rewrite length_app.
  trans (length (if decide (v = EMPTY) then [k 0%nat] else [])
         + length (filter (λ v, v = EMPTY) row))%nat.
  { f_equal. apply (IH (k ∘ S)). }
  case_decide.
  - by rewrite filter_cons_True.
  - by rewrite filter_cons_False.
Qed.

Lemma length_scan_grid (k : nat → nat → coord) (grid0 : Grid) :
  length (concat (imap (λ y_index row,
            concat (imap (λ x_index x,
              if decide (x = EMPTY) then [k y_index x_index] else []) row))
            grid0))
  = length (filter (λ v, v = EMPTY) (concat grid0)).
Proof.
  revert k. induction grid0 as [|row rows IH]; intros k; [done|].
  simpl. rewrite filter_app, !length_app. f_equal.
  - apply (length_scan_row (k 0%nat)).
  - apply (IH (λ y, k (S y))).
Qed.

(** [_get_empty_cells] lists every coordinate that holds [-1] exactly once
    and nothing else, so its length is the number of [-1] in the array. *)
Theorem get_empty_cells_exact (grid0 : Grid) :
  NoDup (_get_empty_cells grid0)
  ∧ (∀ c, c ∈ _get_empty_cells grid0 ↔ grid_get grid0 c = Some EMPTY)
  ∧ length (_get_empty_cells grid0) = count_empty grid0.
Proof.
  split_and!.
  - apply NoDup_get_empty_cells.
  - apply elem_of_get_empty_cells.
  - apply (length_scan_grid (λ y x, (y, x))).
Qed.

(** [_find_unhappy_cells] exits, without drawing, exactly when the scan
    finds no unhappy cell; otherwise it returns the unhappy coordinates in
    some order: each once, all of them occupied, none missing. *)
Theorem find_unhappy_cells_exact (grid0 : Grid) (same_neighbour : float)
    (g : RandomSource) :
  match _find_unhappy_cells grid0 same_neighbour g with
  | (None, g') => scan_unhappy grid0 same_neighbour = [] ∧ g' = g
  | (Some unhappy_cells, _) =>
      unhappy_cells ≠ []
      ∧ unhappy_cells ≡ₚ scan_unhappy grid0 same_neighbour
      ∧ NoDup unhappy_cells
      ∧ ∀ c, c ∈ unhappy_cells →
             ∃ v, grid_get grid0 c = Some v ∧ v ≠ EMPTY
                  ∧ is_unhappy grid0 same_neighbour c.1 c.2 v = true
  end.
Proof.
  unfold _find_unhappy_cells.
  destruct (scan_unhappy grid0 same_neighbour) as [|c0 cs] eqn:Hscan;
    [done|].
  pose proof (shuffle_Permutation (c0 :: cs) g) as Hperm.
  destruct (shuffle (c0 :: cs) g) as [l g']. simpl in Hperm.
  split_and!.
  - intros ->. by apply Permutation_nil_cons in Hperm.
  - done.
  - rewrite Hperm, <- Hscan. apply NoDup_scan_unhappy.
  - intros c Hc. rewrite Hperm, <- Hscan in Hc.
    destruct (scan_unhappy_occupied _ _ _ Hc) as (v & Hv & Hne).
    apply elem_of_scan_unhappy in Hc as (v' & Hv' & Hun).
    exists v. split_and!; [done..|]. congruence.
Qed.

(** ** The outcome of a pass *)

(** What [_update] does depends on the grid alone.  Without unhappy cell
    it exits with status 0, leaving grid and generator as they were.  With
    an unhappy cell and no empty cell it raises [IndexError] on an
    untouched grid.  Otherwise it returns the number of unhappy cells and
    has moved each of them once. *)
Theorem update_outcome (grid0 : Grid) (same_neighbour : float)
    (g : RandomSource) :
  match _update grid0 same_neighbour g with
  | (p, Raise e) =>
      p_grid p = grid0 ∧ p_moves p = []
      ∧ ((e = SystemExit 0 ∧ scan_unhappy grid0 same_neighbour = []
          ∧ p_rng p = g)
         ∨ (e = IndexError ∧ scan_unhappy grid0 same_neighbour ≠ []
            ∧ _get_empty_cells grid0 = []))
  | (p, Ok n) =>
      scan_unhappy grid0 same_neighbour ≠ []
      ∧ _get_empty_cells grid0 ≠ []
      ∧ n = length (scan_unhappy grid0 same_neighbour)
      ∧ length (p_moves p) = n
      ∧ mv_src <$> p_moves p ≡ₚ scan_unhappy grid0 same_neighbour
  end.
Proof.
  pose proof (_update_spec grid0 same_neighbour g) as Hspec.
  assert (scan_unhappy grid0 same_neighbour = [] →
          _update grid0 same_neighbour g
          = ({| p_grid := grid0; p_spots := []; p_rng := g;
                p_moves := [] |}, Raise (SystemExit 0))) as Hexit.
  { intros Hscan. unfold _update, _find_unhappy_cells. by rewrite Hscan. }
  destruct (_update grid0 same_neighbour g) as [p [n|e]].
  - destruct Hspec as (u & -> & Hperm & Hne & -> & Hsome & Inv).
    pose proof (inv_sources _ _ _ _ Inv) as Hsrc.
    split_and!.
    + intros Hscan. rewrite Hscan in Hperm.
      by apply Permutation_nil_r in Hperm.
    + done.
    + by rewrite Hperm.
    + by rewrite <- Hsrc, length_fmap.
    + by rewrite Hsrc.
  - destruct Hspec as (Hg & Hm & [[-> Hscan] | (-> & Hscan & Hno)]).
    + split_and!; [done..|]. left. split_and!; [done..|].
      specialize (Hexit Hscan). by injection Hexit as ->.
    + split_and!; [done..|]. by right.
Qed.

(** A pass never changes the shape of the array. *)
Lemma replays_rect (h w : nat) (moves : list Move) (grid0 grid1 : Grid) :
  replays grid0 moves grid1 → rect h w grid0 → rect h w grid1.
Proof.
  revert grid0. induction moves as [|mv moves IH]; intros grid0; simpl.
  { by intros ->. }
  intros (Hg & grid' & Hap & Hrep) Hrect. apply (IH grid'); [done|].
  unfold apply_move in Hap. rewrite Hg in Hap.
  destruct (grid_get grid0 (mv_src mv)) as [v|]; [|done]. simpl in Hap.
  destruct (grid_set grid0 (mv_dst mv) v) as [g1|] eqn:H1; [|done].
  simpl in Hap. by eapply grid_set_rect, grid_set_rect.
Qed.

Theorem update_keeps_shape (h w : nat) (grid0 : Grid)
    (same_neighbour : float) (g : RandomSource) :
  rect h w grid0 → rect h w (p_grid (_update grid0 same_neighbour g).1).
Proof.
  destruct (_update_trace grid0 same_neighbour g) as (Hrep & _).
  intros Hrect. by eapply replays_rect.
Qed.

Lemma update_keeps_shape_row3 :
  rect 1 3 (p_grid (_update Sample.row3 Sample.f05 (Sample.source [])).1).
Proof.
  apply update_keeps_shape. split; [reflexivity|].
  repeat constructor.
Defined.

(** ** Where agents land *)

Lemma replays_empty_origin (moves : list Move) (grid0 grid1 : Grid)
    (c : coord) :
  replays grid0 moves grid1 → Forall move_ok moves →
  grid_get grid1 c = Some EMPTY →
  grid_get grid0 c = Some EMPTY ∨ c ∈ mv_src <$> moves.
Proof.
  revert grid0. induction moves as [|mv moves IH]; intros grid0; simpl.
  { intros -> _ Hc. by left. }
  intros (Hg & grid' & Hap & Hrep) [Hok Hall]%Forall_cons Hc.
  destruct (IH grid' Hrep Hall Hc) as [Hc' | Hin]; [|by right; right].
  destruct (apply_move_spec mv Hok)
    as (Hne & v & g1 & Hv & Hsrc & Hap' & Hdst1 & Hsrc1 & Hframe).
  assert (g1 = grid') as -> by congruence.
  destruct (decide (c = mv_src mv)) as [->|Hcs]; [by right; left|].
  destruct (decide (c = mv_dst mv)) as [->|Hcd]; [congruence|].
  left. rewrite <- Hg, <- Hframe; done.
Qed.

Lemma replays_prefix (pre post : list Move) (mv : Move)
    (grid0 grid1 : Grid) :
  replays grid0 (pre ++ mv :: post) grid1 → replays grid0 pre (mv_grid mv).
Proof.
  revert grid0. induction pre as [|m pre IH]; intros grid0; simpl.
  { by intros (-> & _). }
  intros (Hg & grid' & Hap & Hrep). split; [done|].
  exists grid'. split; [done|]. by apply IH.
Qed.

(** The cell an agent is moved to was empty when the pass began, or is
    the cell an agent was moved out of earlier in the same pass. *)
Theorem destination_origin (grid0 : Grid) (same_neighbour : float)
    (g : RandomSource) (j : nat) (mj : Move) :
  p_moves (_update grid0 same_neighbour g).1 !! j = Some mj →
  grid_get grid0 (mv_dst mj) = Some EMPTY
  ∨ ∃ i mi, (i < j)%nat
            ∧ p_moves (_update grid0 same_neighbour g).1 !! i = Some mi
            ∧ mv_src mi = mv_dst mj.
Proof.
  intros Hj.
  destruct (_update_trace grid0 same_neighbour g) as (Hrep & Hok & _).
  rewrite <- (take_drop_middle _ _ _ Hj) in Hrep, Hok.
  apply replays_prefix in Hrep.
  apply Forall_app in Hok as [Hpre [Hmj _]%Forall_cons].
  destruct (replays_empty_origin _ _ _ _ Hrep Hpre (proj1 Hmj))
    as [?|Hin]; [by left|]. right.
  apply list_elem_of_lookup in Hin as [i Hi].
  apply list_lookup_fmap_Some in Hi as (mi & Hsrc & Hi).
  apply lookup_take_Some in Hi as [Hi Hlt]. by exists i, mi.
Qed.

Lemma destination_origin_row3 :
  ∃ mj, p_moves (_update Sample.row3 Sample.f05 (Sample.source [])).1
          !! 1%nat = Some mj
        ∧ (grid_get Sample.row3 (mv_dst mj) = Some EMPTY
           ∨ ∃ i mi, (i < 1)%nat
               ∧ p_moves (_update Sample.row3 Sample.f05
                            (Sample.source [])).1 !! i = Some mi
               ∧ mv_src mi = mv_dst mj).
Proof.
  eexists. split; [vm_compute; reflexivity|].
  apply (destination_origin Sample.row3 Sample.f05 (Sample.source [])
           1%nat).
  vm_compute. reflexivity.
Defined.

Lemma draws_without_rescan (spots : list coord) (moves : list Move)
    (spots' : list coord) :
  draws_from spots moves spots' → (length moves ≤ length spots)%nat →
  Forall (λ mv, mv_rescan mv = false ∧ mv_dst mv ∈ spots) moves.
Proof.
  revert spots. induction moves as [|mv moves IH]; intros spots; simpl.
  { constructor. }
  intros (Hcase & Hin & spots1 & Hrm & Hdraws) Hlen.
  destruct (mv_rescan mv) eqn:Hre.
  { destruct Hcase as [-> _]. simpl in Hlen. lia. }
  destruct Hcase as [_ Hsp]. rewrite Hsp in Hin, Hrm.
  apply list_remove_inv in Hrm.
  constructor; [done|].
  assert (length spots = S (length spots1)) as Hl
    by (by rewrite Hrm).
  eapply Forall_impl; [apply (IH spots1 Hdraws); lia|].
  simpl. intros m [? Hm]. split; [done|]. rewrite Hrm. by right.
Qed.

(** When there are at least as many empty cells as unhappy cells the
    working list is never recomputed: every agent lands on a cell that was
    empty when the pass began. *)
Theorem enough_room_no_rescan (grid0 : Grid) (same_neighbour : float)
    (g : RandomSource) :
  (length (scan_unhappy grid0 same_neighbour)
   ≤ length (_get_empty_cells grid0))%nat →
  Forall (λ mv, mv_rescan mv = false
                ∧ grid_get grid0 (mv_dst mv) = Some EMPTY)
         (p_moves (_update grid0 same_neighbour g).1).
Proof.
  intros Hlen.
  destruct (_update_trace grid0 same_neighbour g)
    as (_ & _ & _ & spots' & Hdraws).
  pose proof (_update_spec grid0 same_neighbour g) as Hspec.
  assert (length (p_moves (_update grid0 same_neighbour g).1)
          ≤ length (scan_unhappy grid0 same_neighbour))%nat as Hmoves.
  { destruct (_update grid0 same_neighbour g) as [p [n|e]]; simpl in *.
    - destruct Hspec as (u & -> & Hperm & _ & _ & _ & Inv).
      rewrite <- Hperm, <- (inv_sources _ _ _ _ Inv), length_fmap. done.
    - destruct Hspec as (_ & -> & _). simpl. lia. }
  eapply Forall_impl;
    [apply (draws_without_rescan _ _ _ Hdraws); lia|].
  simpl. intros mv [? Hin]. split; [done|].
  by apply elem_of_get_empty_cells.
Qed.

Lemma enough_room_no_rescan_sample :
  Forall (λ mv, mv_rescan mv = false
                ∧ grid_get [[2; 3; -1]; [3; -1; -1]] (mv_dst mv)
                  = Some EMPTY)
    (p_moves (_update [[2; 3; -1]; [3; -1; -1]] Sample.f05
                (Sample.source [])).1).
Proof.
  apply enough_room_no_rescan. vm_compute. lia.
Defined.

(** ** A threshold of zero *)

Lemma of_int_nat_sign (k : nat) :
  match PyFloat.of_int (Z.of_nat k) with
  | S754_zero s | S754_infinity s | S754_finite s _ _ => s = false
  | S754_nan => True
  end.
Proof.
  unfold PyFloat.of_int, binary_normalize.
  destruct (Z.of_nat k) as [|p|p] eqn:Hk; [done | | lia].
  unfold binary_round. destruct (shl_align _ _ _) as [mz ez].
  apply binary_round_aux_sign.
Qed.

Lemma unhappy_test_zero (s0 : bool) (current : cell) (l : list cell) :
  unhappy_test (S754_zero s0) current l = false.
Proof.
  unfold unhappy_test.
  pose proof (of_int_nat_sign (same_count current l)) as Hk.
  pose proof (of_int_nat_sign (length l)) as Hn.
  destruct (PyFloat.of_int (Z.of_nat (same_count current l)))
    as [sk|sk| |sk mk ek];
    destruct (PyFloat.of_int (Z.of_nat (length l))) as [sn|sn| |sn mn en];
    simpl in *; subst; done.
Qed.

Lemma unhappy_test_nan (current : cell) (l : list cell) :
  unhappy_test S754_nan current l = false.
Proof.
  unfold unhappy_test, PyFloat.mul, PyFloat.ltb, SFltb.
  destruct (PyFloat.of_int (Z.of_nat (length l))); simpl;
    by destruct (PyFloat.of_int _).
Qed.

(** With [same_neighbour] equal to zero (of either sign), or not a number
    (which [process_args] lets through), no cell is ever unhappy: the
    first call of [_update] exits with status 0 and the grid is never
    changed. *)
Theorem degenerate_threshold_all_happy (same_neighbour : float)
    (grid0 : Grid) (g : RandomSource) :
  same_neighbour = S754_nan ∨ (∃ s0, same_neighbour = S754_zero s0) →
  scan_unhappy grid0 same_neighbour = []
  ∧ (_update grid0 same_neighbour g).2 = Raise (SystemExit 0)
  ∧ p_grid (_update grid0 same_neighbour g).1 = grid0.
Proof.
  intros Hthr.
  assert (scan_unhappy grid0 same_neighbour = []) as Hscan.
  { apply elem_of_nil_inv. intros c (v & _ & Hun)%elem_of_scan_unhappy.
    unfold is_unhappy in Hun. case_decide; [done|].
    destruct Hthr as [-> | [s0 ->]].
    - by rewrite unhappy_test_nan in Hun.
    - by rewrite unhappy_test_zero in Hun. }
  split; [done|]. unfold _update, _find_unhappy_cells. by rewrite Hscan.
Qed.

Lemma degenerate_threshold_all_happy_sample :
  (_update Sample.full Sample.f0 (Sample.source [])).2
  = Raise (SystemExit 0).
Proof.
  apply (degenerate_threshold_all_happy Sample.f0 Sample.full
           (Sample.source [])).
  right. by exists false.
Defined.

(** ** The loop *)

Lemma run_loop_frames (fuel : nat) (it : iterator) (r : Run) :
  ∃ new,
    r_frames (run_loop fuel it r).1 = r_frames r ++ new
    ∧ r_updates (run_loop fuel it r).1 = (r_updates r + length new)%nat
    ∧ new.*1 = seqZ (first_index it) (Z.of_nat (length new)).
Proof.
  revert it r. induction fuel as [|fuel IH]; intros it r.
  { exists []. simpl. by rewrite app_nil_r, Nat.add_0_r. }
  simpl. destruct (next it) as [[i it']|] eqn:Hnext.
  2:{ exists []. simpl. by rewrite app_nil_r, Nat.add_0_r. }
  assert (i = first_index it ∧ first_index it' = i + 1) as [Hi Hi'].
  { destruct it as [start stop|start]; simpl in Hnext.
    - destruct (start <? stop); by simplify_eq.
    - by simplify_eq. }
  destruct (_update _ _ _) as [p [n|e]].
  - match goal with |- context [run_loop fuel it' ?r1] =>
      destruct (IH it' r1) as (new & Hfr & Hup & Hnum)
    end.
    simpl in *. exists ((i, grid (r_model r)) :: new).
    rewrite Hfr, Hup, <- app_assoc. split_and!; [done | simpl; lia |].
    simpl length. rewrite Nat2Z.inj_succ, seqZ_cons by lia.
    rewrite fmap_cons, Hnum, Hi', Hi, Z.pred_succ. done.
  - exists [(i, grid (r_model r))]. subst i.
    destruct e; rewrite ?save_gif_snoc; simpl;
      (split_and!; [done | lia | done]).
Qed.

(** The frames handed to [_save_img] are numbered 1, 2, 3, ... without a
    gap, one frame for each call of [_update]. *)
Theorem frames_numbered_from_one (fuel : nat) (m : SocialSegregation)
    (g : RandomSource) :
  (r_frames (run fuel m g).1).*1
  = seqZ 1 (Z.of_nat (r_updates (run fuel m g).1))
  ∧ length (r_frames (run fuel m g).1) = r_updates (run fuel m g).1.
Proof.
  rewrite run_fst.
  match goal with |- context [run_loop fuel ?it ?r0] =>
    destruct (run_loop_frames fuel it r0) as (new & Hfr & Hup & Hnum)
  end.
  simpl in *. rewrite Hfr, Hup, Hnum. split; [|done].
  f_equal. unfold run_iterator. by destruct (iterations (args m) =? -1).
Qed.

(** A budget of zero, or a negative budget other than [-1], simulates
    nothing: the loop is over at once, with no frame, no call of [_update]
    and the object as it was built.  Unless [no_gif] is set the run then
    fails: the animation is assembled from no image at all, which raises
    [ValueError]. *)
Theorem empty_budget_does_nothing (fuel : nat) (m : SocialSegregation)
    (g : RandomSource) :
  iterations (args m) ≠ -1 → iterations (args m) ≤ 0 →
  run (S fuel) m g
  = ({| r_model := m; r_rng := g; r_frames := []; r_updates := 0 |},
     if no_gif (args m) then Finished else Crashed ValueError).
Proof.
  intros Hne Hle. unfold run, run_iterator.
  destruct (iterations (args m) =? -1) eqn:Heq; [lia|]. simpl.
  destruct (1 <? iterations (args m) + 1) eqn:Hlt; [lia|].
  simpl. unfold save_gif_unless_no_gif. by destruct (no_gif (args m)).
Qed.

Lemma empty_budget_does_nothing_sample :
  (run 3 (Sample.model (Sample.config 3 1 2 (-5) Sample.f03 Sample.f05)
            Sample.row3) (Sample.source [])).2 = Crashed ValueError.
Proof.
  rewrite (empty_budget_does_nothing 2); [reflexivity | discriminate |].
  vm_compute. discriminate.
Defined.



(** ** Construction *)

Lemma slice_to_take {A : Type} (k : Z) (l : list A) :
  ∃ n, slice_to k l = take n l.
Proof. unfold slice_to. destruct (0 <=? k); eauto. Qed.

Lemma randint_row_length (low high : Z) (w : nat) (g : RandomSource) :
  length (randint_row low high w g).1 = w.
Proof.
  revert g. induction w as [|w IH]; intros g; cbn [randint_row]; [done|].
  destruct (randint low high g) as [v g1]. specialize (IH g1).
  destruct (randint_row low high w g1) as [row g2]. simpl in *. lia.
Qed.

Lemma randint_grid_rect (low high : Z) (h w : nat) (g : RandomSource) :
  rect h w (randint_grid low high h w g).1.
Proof.
  revert g. induction h as [|h IH]; intros g; cbn [randint_grid].
  { split; constructor. }
  pose proof (randint_row_length low high w g) as Hlen.
  destruct (randint_row low high w g) as [row g1].
  destruct (IH g1) as [Hh Hw].
  destruct (randint_grid low high h w g1) as [rows g2]. simpl in *.
  split; [simpl; lia | by constructor].
Qed.

Lemma randint_refuses_false (a : ArgParser) :
  randint_refuses a = false →
  0 ≤ height a ∧ 0 ≤ width a
  ∧ ((Z.to_nat (height a) * Z.to_nat (width a) = 0)%nat
     ∨ (1 ≤ agent_types a ∧ agent_types a + 1 ≤ INT64_MAX)).
Proof.
  unfold randint_refuses. intros H.
  apply orb_false_elim in H as [H H3].
  apply orb_false_elim in H as [H1 H2].
  apply Z.ltb_ge in H1, H2. split; [done|]. split; [done|].
  destruct (Nat.eqb_spec (Z.to_nat (height a) * Z.to_nat (width a)) 0)
    as [Hz|Hnz]; [by left|right].
  simpl in H3. apply orb_false_elim in H3 as [H4 H5].
  apply Z.ltb_ge in H4, H5. lia.
Qed.


(** [__init__] in full: it fails when [randint] refuses its arguments,
    with a [ValueError], or when the number of empty cells is not finite,
    with the exception of [int]; otherwise the grid has the requested
    shape, holds agent types and as many [-1] as the slice keeps indices.
    Only the generator of [numpy] is used. *)
Lemma __init___spec (a : ArgParser) (g : Generators) :
  py_random (__init__ a g).2 = py_random g
  ∧ match (__init__ a g).1 with
    | Raise e =>
        (randint_refuses a = true ∧ e = ValueError)
        ∨ (randint_refuses a = false
           ∧ num_empty a (Z.to_nat (height a) * Z.to_nat (width a)) = None
           ∧ e = int_error
                   (PyFloat.mul (percent_empty a)
                      (PyFloat.of_int
                         (Z.of_nat (Z.to_nat (height a)
                                    * Z.to_nat (width a))))))
    | Ok m =>
        randint_refuses a = false
        ∧ args m = a ∧ iteration m = 0
        ∧ rect (Z.to_nat (height a)) (Z.to_nat (width a)) (grid m)
        ∧ Forall (λ v, v = EMPTY ∨ is_agent a v) (concat (grid m))
        ∧ ∃ n,
            num_empty a (Z.to_nat (height a) * Z.to_nat (width a)) = Some n
            ∧ count_empty (grid m)
              = length (slice_to n
                          (seq 0 (Z.to_nat (height a)
                                  * Z.to_nat (width a))))
    end.
Proof.
  unfold __init__.
  destruct (randint_refuses a) eqn:Hguard.
  { split; [done|]. by left. }
  pose proof (randint_grid_rect 2 (agent_types a + 2) (Z.to_nat (height a))
                (Z.to_nat (width a)) (np_random g)) as Hrect.
  assert (Forall (λ v, 2 ≤ v < agent_types a + 2)
            (concat (randint_grid 2 (agent_types a + 2)
                       (Z.to_nat (height a)) (Z.to_nat (width a))
                       (np_random g)).1)) as Hvals.
  { destruct (decide (Z.to_nat (height a) * Z.to_nat (width a) = 0)%nat)
      as [Hz|Hnz].
    - pose proof (rect_size _ _ _ Hrect) as Hsize. unfold grid_size in Hsize.
      rewrite Hz in Hsize. apply nil_length_inv in Hsize. rewrite Hsize.
      constructor.
    - apply randint_grid_spec.
      destruct (randint_refuses_false a Hguard) as (_ & _ & [?|?]); lia. }
  destruct (randint_grid _ _ _ _ _) as [grid0 np1]. simpl in Hrect, Hvals.
  rewrite (rect_size _ _ _ Hrect).
  destruct (num_empty a _) as [n|] eqn:Hn.
  2:{ split; [done|]. simpl. by right. }
  pose proof (shuffle_Permutation
                (seq 0 (Z.to_nat (height a) * Z.to_nat (width a))) np1)
    as Hperm.
  destruct (shuffle _ np1) as [empty_indice np2]. simpl in Hperm.
  assert (NoDup empty_indice) as Hnd.
  { rewrite Hperm. apply NoDup_seq. }
  assert (length (slice_to n empty_indice)
          = length (slice_to n (seq 0 (Z.to_nat (height a)
                                       * Z.to_nat (width a))))) as Hlen.
  { unfold slice_to. destruct (0 <=? n); by rewrite !length_take, Hperm. }
  destruct (slice_to_take n empty_indice) as [k Hk].
  rewrite Hk in *.
  destruct (flat_assign_spec (Z.to_nat (height a)) (Z.to_nat (width a))
              (take k empty_indice) grid0)
    as (grid1 & -> & Hrect1 & Hcount & Hin); try done.
  - eapply sublist_NoDup; [done | apply sublist_take].
  - intros i (j & Hj & _)%elem_of_take.
    apply list_elem_of_lookup_2 in Hj. rewrite Hperm in Hj.
    apply elem_of_seq in Hj. lia.
  - intros i _ Hget.
    assert (EMPTY ∈ concat grid0) as Hempty
      by (apply elem_of_concat_grid; eauto).
    apply (proj1 (Forall_forall _ _) Hvals) in Hempty. unfold EMPTY in *.
    lia.
  - simpl. split; [done|]. split_and!; try done.
    + apply Forall_forall. intros v Hv.
      destruct (Hin v Hv) as [?|Hv0]; [by left|]. right.
      apply (proj1 (Forall_forall _ _) Hvals) in Hv0. done.
    + exists n. split; [done|].
      rewrite Hcount, count_empty_agents, <- Hlen; [done|].
      eapply Forall_impl; [apply Hvals|]. simpl. lia.
Qed.



(** A [percent_empty] that is not a number passes the two comparisons of
    [process_args]; the program then stops with the [ValueError] of
    [int()] when the object is built, whatever the other arguments. *)
Theorem nan_percent_empty_fails_late (fs : FileSystem) (fuel : nat)
    (a : ArgParser) (g : Generators) :
  percent_empty a = S754_nan →
  PyFloat.ltb (same_neighbour a) (PyFloat.of_int 0)
  || PyFloat.geb (same_neighbour a) (PyFloat.of_int 1) = false →
  dir_exists fs (images_path a) = true →
  cleanup_fails fs (images_path a) = false →
  dir_exists fs (default (images_path a) (gif_path a)) = true →
  (∃ a', process_args fs a = Ok a')
  ∧ program fs fuel a g = (None, Crashed ValueError).
Proof.
  intros Hnan Hsn Himg Hclean Hgif.
  unfold program, process_args.
  rewrite Hnan, Hsn, Himg, Hclean. simpl.
  assert (dir_exists fs match gif_path a with
                        | Some p => p
                        | None => images_path a
                        end = true) as ->
    by (by destruct (gif_path a)).
  simpl. split; [by eexists|].
  unfold main.
  match goal with |- context [__init__ ?a' g] =>
    destruct (__init___spec a' g) as [_ Hspec];
    destruct (__init__ a' g) as [[m|e] g']; simpl in *
  end.
  - destruct Hspec as (_ & _ & _ & _ & _ & n & Hn & _).
    unfold num_empty in Hn. simpl in Hn. rewrite ?Hnan in Hn. done.
  - destruct Hspec as [[_ ->] | (_ & _ & ->)]; [done|].
    simpl. by rewrite ?Hnan.
Qed.

Lemma nan_percent_empty_fails_late_sample :
  program Sample.fs 3 (Sample.config 3 3 2 (-1) S754_nan Sample.f04)
    (Sample.generators [] [])
  = (None, Crashed ValueError).
Proof.
  apply (nan_percent_empty_fails_late Sample.fs 3
           (Sample.config 3 3 2 (-1) S754_nan Sample.f04));
    reflexivity.
Defined.



(** ** The neighbourhood *)

Lemma neighbour_item_length (h w : nat) (grid0 : Grid) (b : bool) (i j : Z) :
  rect h w grid0 →
  (b = true → 0 ≤ i < Z.of_nat h ∧ 0 ≤ j < Z.of_nat w) →
  length (if b then match grid_get grid0 (Z.to_nat i, Z.to_nat j) with
                    | Some v => [v]
                    | None => []
                    end
          else []) = Nat.b2n b.
Proof.
  intros Hrect Hb. destruct b; [|done].
  destruct (Hb eq_refl) as [Hi Hj].
  destruct (rect_get h w grid0 (Z.to_nat i) (Z.to_nat j) Hrect) as [v ->];
    [lia.. | done].
Qed.

Lemma rect_width (h w : nat) (grid0 : Grid) :
  rect h w grid0 → (0 < h)%nat → grid_width grid0 = w.
Proof.
  intros [Hlen Hall] Hh. destruct grid0 as [|row rows];
    [simpl in Hlen; lia|]. by apply Forall_cons in Hall as [? _].
Qed.

(** The number of neighbours of a cell of an [h x w] array: the rows and
    columns around it that exist, minus the cell itself.  Eight inside,
    five on an edge, three in a corner, none in a 1 x 1 array. *)
Theorem neighbours_count (h w : nat) (grid0 : Grid) (r c : nat) :
  rect h w grid0 → (r < h)%nat → (c < w)%nat →
  length (_get_neighbours grid0 r c)
  = ((1 + Nat.b2n (0 <? r) + Nat.b2n (r + 1 <? h))
     * (1 + Nat.b2n (0 <? c) + Nat.b2n (c + 1 <? w)) - 1)%nat.
Proof.
  intros Hrect Hr Hc.
  assert (grid_height grid0 = h) as Hh by apply Hrect.
  assert (grid_width grid0 = w) as Hw by (eapply rect_width; [done | lia]).
  unfold _get_neighbours. rewrite !seqZ_3, Hh, Hw. simpl.
  replace (Z.of_nat r - 1 + 1) with (Z.of_nat r) by lia.
  replace (Z.of_nat c - 1 + 1) with (Z.of_nat c) by lia.
  rewrite !Z.eqb_refl. simpl. rewrite andb_false_r, !app_nil_r.
  rewrite !length_app, !orb_false_r.
  rewrite !(neighbour_item_length h w grid0) by (done || lia).
  destruct (Nat.ltb_spec 0 r) as [H1|H1],
    (Nat.ltb_spec (r + 1) h) as [H2|H2],
    (Nat.ltb_spec 0 c) as [H3|H3],
    (Nat.ltb_spec (c + 1) w) as [H4|H4]; simpl Nat.b2n;
    repeat match goal with
    | |- context [Nat.b2n ?b] =>
        first [ replace b with true by lia | replace b with false by lia ];
        simpl Nat.b2n
    end; simpl; lia.
Qed.

Lemma neighbours_count_corner :
  length (_get_neighbours [[2; 3; -1]; [3; -1; 2]] 0 0) = 3%nat.
Proof.
  apply (neighbours_count 2 3 [[2; 3; -1]; [3; -1; 2]] 0 0).
  - split; [reflexivity | repeat constructor].
  - lia.
  - lia.
Defined.

Lemma bind_ext_in {A B : Type} (f1 f2 : A → list B) (l : list A) :
  (∀ x, x ∈ l → f1 x = f2 x) → l ≫= f1 = l ≫= f2.
Proof.
  induction l as [|a l IH]; intros Hext; [done|].
  change ((a :: l) ≫= f1) with (f1 a ++ (l ≫= f1)).
  change ((a :: l) ≫= f2) with (f2 a ++ (l ≫= f2)).
  rewrite Hext by (by left). f_equal. apply IH.
  intros x Hx. apply Hext. by right.
Qed.

Lemma neighbours_local_aux (grid0 grid1 : Grid) (r c : nat) :
  grid_height grid1 = grid_height grid0 →
  grid_width grid1 = grid_width grid0 →
  (∀ c', c' ≠ (r, c) → adjacent c' (r, c) →
         grid_get grid1 c' = grid_get grid0 c') →
  _get_neighbours grid1 r c = _get_neighbours grid0 r c.
Proof.
  intros Hh Hw Hagree. unfold _get_neighbours. rewrite Hh, Hw.
  apply bind_ext_in. intros i Hi%elem_of_seqZ.
  apply bind_ext_in. intros j Hj%elem_of_seqZ.
  destruct (_ && _ && _ && _ && _) eqn:Hguard; [|done].
  rewrite Hagree; [done | |].
  - intros [= Hy Hx]. lia.
  - unfold adjacent. simpl. lia.
Qed.

(** The neighbours of a cell are read from the cells around it only: two
    arrays of the same shape that agree on the adjacent cells, the cell
    itself left out, give the same list, and the same verdict on an agent
    in that cell. *)
Theorem neighbours_local (grid0 grid1 : Grid) (same_neighbour : float)
    (r c : nat) :
  grid_height grid1 = grid_height grid0 →
  grid_width grid1 = grid_width grid0 →
  (∀ c', c' ≠ (r, c) → adjacent c' (r, c) →
         grid_get grid1 c' = grid_get grid0 c') →
  _get_neighbours grid1 r c = _get_neighbours grid0 r c
  ∧ ∀ x, is_unhappy grid1 same_neighbour r c x
         = is_unhappy grid0 same_neighbour r c x.
Proof.
  intros Hh Hw Hagree.
  pose proof (neighbours_local_aux grid0 grid1 r c Hh Hw Hagree) as Hnb.
  split; [done|]. intros x. unfold is_unhappy, not_empty_neighbours.
  by rewrite Hnb.
Qed.

Lemma neighbours_local_sample :
  _get_neighbours [[7; 3; -1]; [3; -1; 5]] 0 0
  = _get_neighbours [[2; 3; -1]; [3; -1; 2]] 0 0.
Proof.
  apply (neighbours_local _ _ Sample.f05); [reflexivity | reflexivity |].
  intros [y x] Hne [Hy Hx]. simpl in *.
  assert (y = 0 ∨ y = 1)%nat as [-> | ->] by lia;
    (assert (x = 0 ∨ x = 1)%nat as [-> | ->] by lia); done.
Defined.

(** ** Locality of a pass *)

Lemma grid_set_width (grid0 grid1 : Grid) (c : coord) (v : cell) :
  grid_set grid0 c v = Some grid1 → grid_width grid1 = grid_width grid0.
Proof.
  intros (row & Hrow & _ & ->)%grid_set_Some.
  destruct grid0 as [|row0 rows]; [done|].
  destruct c as [[|y] x]; simpl in *; [|done].
  injection Hrow as ->. apply length_insert.
Qed.

Lemma replays_shape (moves : list Move) (grid0 grid1 : Grid) :
  replays grid0 moves grid1 →
  grid_height grid1 = grid_height grid0
  ∧ grid_width grid1 = grid_width grid0.
Proof.
  revert grid0. induction moves as [|mv moves IH]; intros grid0; simpl.
  { by intros ->. }
  intros (Hg & grid' & Hap & Hrep).
  destruct (IH grid' Hrep) as [-> ->].
  unfold apply_move in Hap. rewrite Hg in Hap.
  destruct (grid_get grid0 (mv_src mv)) as [v|]; [|done]. simpl in Hap.
  destruct (grid_set grid0 (mv_dst mv) v) as [g1|] eqn:H1; [|done].
  simpl in Hap. unfold grid_height.
  rewrite (grid_set_height _ _ _ _ Hap), (grid_set_height _ _ _ _ H1).
  by rewrite (grid_set_width _ _ _ _ Hap), (grid_set_width _ _ _ _ H1).
Qed.

Lemma replays_frame (moves : list Move) (grid0 grid1 : Grid) (c : coord) :
  replays grid0 moves grid1 → Forall move_ok moves →
  (∀ mv, mv ∈ moves → c ≠ mv_src mv ∧ c ≠ mv_dst mv) →
  grid_get grid1 c = grid_get grid0 c.
Proof.
  revert grid0. induction moves as [|mv moves IH]; intros grid0; simpl.
  { by intros ->. }
  intros (Hg & grid' & Hap & Hrep) [Hok Hall]%Forall_cons Hc.
  rewrite (IH grid' Hrep Hall) by (intros m Hm; apply Hc; by right).
  destruct (apply_move_spec mv Hok)
    as (_ & v & g1 & _ & _ & Hap' & _ & _ & Hframe).
  assert (g1 = grid') as -> by congruence.
  destruct (Hc mv) as [Hs Hd]; [by left|].
  rewrite <- Hg. by apply Hframe.
Qed.

(** A pass changes the standing of the cells around its moves only: a
    cell that is not adjacent to the source or the destination of any move
    of the pass has the same neighbours after the pass, and an agent there
    is unhappy after the pass exactly if it was before. *)
Theorem update_is_local (grid0 : Grid) (same_neighbour : float)
    (g : RandomSource) (y_index x_index : nat) :
  (∀ mv, mv ∈ p_moves (_update grid0 same_neighbour g).1 →
         ¬ adjacent (mv_src mv) (y_index, x_index)
         ∧ ¬ adjacent (mv_dst mv) (y_index, x_index)) →
  _get_neighbours (p_grid (_update grid0 same_neighbour g).1)
                  y_index x_index
  = _get_neighbours grid0 y_index x_index
  ∧ ∀ x, is_unhappy (p_grid (_update grid0 same_neighbour g).1)
                    same_neighbour y_index x_index x
         = is_unhappy grid0 same_neighbour y_index x_index x.
Proof.
  intros Hfar.
  destruct (_update_trace grid0 same_neighbour g) as (Hrep & Hok & _).
  destruct (replays_shape _ _ _ Hrep) as [Hh Hw].
  assert (_get_neighbours (p_grid (_update grid0 same_neighbour g).1)
                          y_index x_index
          = _get_neighbours grid0 y_index x_index) as Hnb.
  { apply neighbours_local_aux; [done..|].
    intros c' _ Hadj. apply (replays_frame _ _ _ _ Hrep Hok).
    intros mv Hmv. destruct (Hfar mv Hmv) as [Hs Hd].
    split; intros ->; done. }
  split; [done|]. intros x. unfold is_unhappy, not_empty_neighbours.
  by rewrite Hnb.
Qed.

Lemma update_is_local_sample :
  is_unhappy
    (p_grid (_update [[2; 3; -1; -1; 5; 5]] Sample.f05
               (Sample.source [])).1) Sample.f05 0 5 5
  = is_unhappy [[2; 3; -1; -1; 5; 5]] Sample.f05 0 5 5.
Proof.
  refine (proj2 (update_is_local [[2; 3; -1; -1; 5; 5]] Sample.f05
                   (Sample.source []) 0 5 _) 5).
  intros mv Hmv. vm_compute in Hmv.
  repeat (apply elem_of_cons in Hmv as [-> | Hmv]);
    [| | by apply elem_of_nil in Hmv]; unfold adjacent; simpl; lia.
Defined.

(** ** Who moves *)

Lemma replays_keeps (moves : list Move) (grid0 grid1 : Grid) (c : coord)
    (v : cell) :
  replays grid0 moves grid1 → Forall move_ok moves →
  (∀ mv, mv ∈ moves → c ≠ mv_src mv) →
  grid_get grid0 c = Some v → v ≠ EMPTY → grid_get grid1 c = Some v.
Proof.
  revert grid0. induction moves as [|mv moves IH]; intros grid0; simpl.
  { by intros ->. }
  intros (Hg & grid' & Hap & Hrep) [Hok Hall]%Forall_cons Hsrc Hc Hv.
  apply (IH grid' Hrep Hall); [intros m Hm; apply Hsrc; by right | | done].
  destruct (apply_move_spec mv Hok)
    as (_ & u & g1 & _ & _ & Hap' & _ & _ & Hframe).
  assert (g1 = grid') as -> by congruence.
  rewrite Hframe, Hg; [done | apply Hsrc; by left |].
  intros ->. destruct Hok as [Hd _]. rewrite Hg in Hd. congruence.
Qed.

(** An agent that is not unhappy when the pass begins is still in its cell
    when the pass ends: only unhappy agents are moved, and nobody is
    moved onto an occupied cell. *)
Theorem happy_agents_stay (grid0 : Grid) (same_neighbour : float)
    (g : RandomSource) (c : coord) (v : cell) :
  grid_get grid0 c = Some v → v ≠ EMPTY →
  c ∉ scan_unhappy grid0 same_neighbour →
  grid_get (p_grid (_update grid0 same_neighbour g).1) c = Some v.
Proof.
  intros Hc Hv Hhappy.
  destruct (_update_trace grid0 same_neighbour g) as (Hrep & Hok & _).
  apply (replays_keeps _ _ _ _ _ Hrep Hok); [|done..].
  intros mv Hmv ->. apply Hhappy.
  pose proof (_update_spec grid0 same_neighbour g) as Hspec.
  destruct (_update grid0 same_neighbour g) as [p [n|e]]; simpl in *.
  - destruct Hspec as (u & -> & Hperm & _ & _ & _ & Inv).
    rewrite <- Hperm, <- (inv_sources _ _ _ _ Inv).
    by apply list_elem_of_fmap_2.
  - destruct Hspec as (_ & Hm & _). rewrite Hm in Hmv.
    by apply elem_of_nil in Hmv.
Qed.

Lemma happy_agents_stay_sample :
  grid_get (p_grid (_update [[2; 3; -1; -1; 5; 5]] Sample.f05
                      (Sample.source [])).1) (0, 4)%nat = Some 5.
Proof.
  apply happy_agents_stay.
  - reflexivity.
  - discriminate.
  - vm_compute. intros Hin.
    repeat (apply elem_of_cons in Hin as [[=] | Hin]).
    by apply elem_of_nil in Hin.
Defined.

(** ** The grids of a program run *)

Lemma run_loop_rect (h w fuel : nat) (it : iterator) (r : Run) :
  rect h w (grid (r_model r)) →
  Forall (λ fr, rect h w fr.2) (r_frames r) →
  rect h w (grid (r_model (run_loop fuel it r).1))
  ∧ Forall (λ fr, rect h w fr.2) (r_frames (run_loop fuel it r).1).
Proof.
  revert it r. induction fuel as [|fuel IH]; intros it r Hrect Hall;
    [done|].
  simpl. destruct (next it) as [[i it']|]; [|done].
  destruct (_update_trace (grid (r_model r))
              (same_neighbour (args (r_model r))) (r_rng r))
    as (Hrep & _).
  apply (replays_rect h w) in Hrep; [|done].
  assert (Forall (λ fr, rect h w fr.2)
                 (r_frames r ++ [(i, grid (r_model r))])) as Hall'.
  { apply Forall_app. split; [done|]. by apply Forall_singleton. }
  destruct (_update _ _ _) as [p [n|e]]; simpl in *.
  - by apply IH.
  - destruct e; try done.
    by destruct (save_gif_unless_no_gif _ _).
Qed.

(** Whatever the program draws, every grid it shows (each frame and the
    final grid) has the shape [(height, width)], holds only [-1] and
    agent types [2 .. agent_types + 1], and has as many empty cells as the
    grid it started from. *)
Theorem program_grids_well_formed (fuel : nat) (a : ArgParser)
    (g : Generators) (r : Run) :
  (main fuel a g).1 = Some r →
  let well_formed (grid0 : Grid) :=
    rect (Z.to_nat (height a)) (Z.to_nat (width a)) grid0
    ∧ Forall (λ v, v = EMPTY ∨ is_agent a v) (concat grid0)
    ∧ count_empty grid0 = count_empty (grid (r_model r)) in
  well_formed (grid (r_model r))
  ∧ Forall (λ fr, well_formed fr.2) (r_frames r).
Proof.
  unfold main. destruct (__init___spec a g) as [_ Hspec].
  destruct (__init__ a g) as [[m|e] g']; simpl in *; [|done].
  destruct Hspec as (_ & _ & _ & Hrect & Hvals & _).
  pose proof (run_fst fuel m (py_random g')) as Hrun.
  destruct (run fuel m (py_random g')) as [r' o].
  simpl. intros [= ->]. simpl in Hrun. symmetry in Hrun.
  match type of Hrun with (run_loop fuel ?it ?r0).1 = _ =>
    destruct (run_loop_spec fuel it r0)
      as (new & Hfr & _ & _ & _ & Hgrid & Hall & _);
    destruct (run_loop_rect (Z.to_nat (height a)) (Z.to_nat (width a))
                fuel it r0) as [Hrect' Hrects]; [done | constructor |]
  end.
  rewrite Hrun in *. simpl in *.
  split.
  - split_and!; [done | by rewrite Hgrid | done].
  - apply Forall_forall. intros fr Hin.
    pose proof (proj1 (Forall_forall _ _) Hrects fr Hin) as Hr.
    rewrite Hfr in Hin.
    pose proof (proj1 (Forall_forall _ _) Hall fr Hin) as Hp.
    simpl in *. split_and!; [done | by rewrite Hp |].
    unfold count_empty. by rewrite Hp, Hgrid.
Qed.

Lemma program_grids_well_formed_sample :
  ∃ r, (main 4 (Sample.config 3 2 2 (-1) Sample.f05 Sample.f04)
          (Sample.generators [1; 0; 2]%nat
             [0; 1; 1; 0; 1; 0; 3; 1]%nat)).1 = Some r
       ∧ Forall (λ fr, rect 2 3 fr.2) (r_frames r).
Proof.
  eexists. split; [vm_compute; reflexivity|].
  eapply Forall_impl;
    [apply (program_grids_well_formed 4
              (Sample.config 3 2 2 (-1) Sample.f05 Sample.f04)
              (Sample.generators [1; 0; 2]%nat
                 [0; 1; 1; 0; 1; 0; 3; 1]%nat));
     vm_compute; reflexivity|].
  intros fr (Hrect & _). exact Hrect.
Defined.

(** ** The order of a pass and the choice of a destination *)

(** The unhappy cells are processed in the order the exchange loop of
    [random.shuffle] builds from its draws, which are in range and are the
    only draws [_find_unhappy_cells] makes.  Every ordering of the unhappy
    cells comes from exactly one sequence of draws in range, so that
    uniform draws make every order of processing equally likely. *)
Theorem unhappy_cells_order (grid0 : Grid) (same_neighbour : float)
    (g : RandomSource) :
  scan_unhappy grid0 same_neighbour ≠ [] →
  let u := scan_unhappy grid0 same_neighbour in
  let js := exchange_draws (length u - 1) g in
  _find_unhappy_cells grid0 same_neighbour g
  = (Some (shuffle_with (length u - 1) js u), advance (length u - 1) g)
  ∧ choices_in_range (length u - 1) js
  ∧ ∀ order, order ≡ₚ u →
      ∃ js0, choices_in_range (length u - 1) js0
             ∧ shuffle_with (length u - 1) js0 u = order
             ∧ ∀ js1, choices_in_range (length u - 1) js1 →
                      shuffle_with (length u - 1) js1 u = order →
                      js1 = js0.
Proof.
  intros Hne u js. split_and!.
  - unfold _find_unhappy_cells. fold u.
    destruct u as [|c l] eqn:Hu; [done|].
    unfold shuffle. by rewrite shuffle_from_with.
  - apply exchange_draws_in_range.
  - intros order Horder.
    apply shuffle_with_bijection; [apply NoDup_scan_unhappy | done].
Qed.

Lemma unhappy_cells_order_row3 :
  _find_unhappy_cells Sample.row3 Sample.f05 (Sample.source [])
  = (Some [(0, 1); (0, 0)]%nat, advance 1 (Sample.source [])).
Proof.
  refine (eq_trans
            (proj1 (unhappy_cells_order Sample.row3 Sample.f05
                      (Sample.source []) _)) _).
  - vm_compute. discriminate.
  - reflexivity.
Defined.


